(** * FlexGet configuration validator ([flexget/validator.py])

    A shallow embedding of the validator module: the [Errors] collector,
    the rule classes with their [validateable], [validate] and [schema]
    methods, and the shared helper [validate_item].

    Python values are an inductive type and a method that may raise
    returns a [Result]. Every rule of a tree reaches the one collector of
    the root through its [parent] links (the [errors] property); here
    the collector is a state handed from call to call. *)

From stdpp Require Import base list strings pretty sorting.
From Stdlib Require Import ZArith Ascii Lia.

Open Scope string_scope.
Open Scope Z_scope.

Set Warnings "-register-all".
Set Default Proof Using "Type".

(** ** Python values

    The configuration data handed to a validator comes from a YAML file:
    scalars, lists and dictionaries. [DInt] is Python 2's [int], [DLong]
    its [long]; [bool] is a subclass of [int]. A float is the finite
    dyadic number [m * 2 ^ e]; NaN and the infinities are not modelled.
    A dictionary is the list of its items in iteration order. *)

Inductive Data : Type :=
| DNone
| DBool (b : bool)
| DInt (z : Z)
| DLong (z : Z)
| DFloat (m e : Z)
| DStr (s : string)
| DList (l : list Data)
| DDict (items : list (Data * Data)).

Definition is_basestring (d : Data) : bool :=
  match d with DStr _ => true | _ => false end.
Definition is_bool (d : Data) : bool :=
  match d with DBool _ => true | _ => false end.
(** [isinstance(d, int)]: booleans are ints. *)
Definition is_int (d : Data) : bool :=
  match d with DInt _ | DBool _ => true | _ => false end.
Definition is_long (d : Data) : bool :=
  match d with DLong _ => true | _ => false end.
Definition is_float (d : Data) : bool :=
  match d with DFloat _ _ => true | _ => false end.
Definition is_list (d : Data) : bool :=
  match d with DList _ => true | _ => false end.
Definition is_dict (d : Data) : bool :=
  match d with DDict _ => true | _ => false end.

(** The numeric value of a number, as mantissa and binary exponent. *)
Definition numeric (d : Data) : option (Z * Z) :=
  match d with
  | DBool b => Some (if b then 1 else 0, 0)
  | DInt z | DLong z => Some (z, 0)
  | DFloat m e => Some (m, e)
  | _ => None
  end.

Definition dyadic_eqb (x y : Z * Z) : bool :=
  let k := Z.min (snd x) (snd y) in
  (fst x * 2 ^ (snd x - k) =? fst y * 2 ^ (snd y - k)).

(** Python's [==]: numbers compare by value across [bool], [int], [long]
    and [float]; strings by content; lists elementwise; dictionaries as
    mappings; values of unrelated types are different. *)
Fixpoint py_eq (a b : Data) {struct a} : bool :=
  match a, b with
  | DNone, DNone => true
  | DStr s, DStr t => String.eqb s t
  | DList l, DList l' =>
      (fix go (l l' : list Data) {struct l} : bool :=
         match l, l' with
         | [], [] => true
         | x :: r, y :: r' => py_eq x y && go r r'
         | _, _ => false
         end) l l'
  | DDict m, DDict m' =>
      (length m =? length m')%nat &&
      (fix all (m : list (Data * Data)) {struct m} : bool :=
         match m with
         | [] => true
         | (k, v) :: r =>
             existsb (fun kv' => py_eq k (fst kv') && py_eq v (snd kv')) m' && all r
         end) m
  | _, _ =>
      match numeric a, numeric b with
      | Some x, Some y => dyadic_eqb x y
      | _, _ => false
      end
  end.

(** [x in l] for a list [l]. *)
Definition py_in (x : Data) (l : list Data) : bool :=
  existsb (fun y => py_eq y x) l.

(** [l.index(x)]: the position of the first element equal to [x]. *)
Fixpoint list_index (x : Data) (l : list Data) : option nat :=
  match l with
  | [] => None
  | y :: r => if py_eq y x then Some O else S <$> list_index x r
  end.

(** [s.lower()] on ASCII letters: what [str.lower] does, and what
    [unicode.lower] does on ASCII text. The capitals outside ASCII that
    [unicode.lower] maps too are left as they are. *)
Definition lower_ascii (c : ascii) : ascii :=
  let n := nat_of_ascii c in
  if ((65 <=? n) && (n <=? 90))%nat then ascii_of_nat (n + 32) else c.

Fixpoint lower (s : string) : string :=
  match s with
  | EmptyString => EmptyString
  | String c r => String (lower_ascii c) (lower r)
  end.

(** [sep.join(l)]. *)
Definition join (sep : string) (l : list string) : string := String.concat sep l.

(** [sorted(l)] on strings, ordered by character code. *)
Fixpoint insert_sorted (s : string) (l : list string) : list string :=
  match l with
  | [] => [s]
  | t :: r => if String.leb s t then s :: l else t :: insert_sorted s r
  end.

Definition sorted (l : list string) : list string :=
  foldr insert_sorted [] l.

(** Python's index normalisation for [l[i]] and [del l[i]] on a list of
    [len] elements: a negative index counts from the end, and an index
    outside the list is an [IndexError] (here [None]). *)
Definition norm_index (len : nat) (i : Z) : option nat :=
  let j := if i <? 0 then i + Z.of_nat len else i in
  if (0 <=? j) && (j <? Z.of_nat len) then Some (Z.to_nat j) else None.

(** What is left of [l] after [del l[start:]]. *)
Definition del_from {A} (start : Z) (l : list A) : list A :=
  let len := Z.of_nat (length l) in
  let s := if start <? 0 then Z.max (start + len) 0 else Z.min start len in
  take (Z.to_nat s) l.

(** ** Exceptions *)

Inductive exn : Type :=
| Exception (msg : string)
| IndexError
| TypeError
| AttributeError
| ValueError
| ReError.

Inductive Result (A : Type) : Type :=
| Ok (a : A)
| Raise (x : exn).
Arguments Ok {A} a.
Arguments Raise {A} x.

#[global] Instance Result_ret : MRet Result := fun _ a => Ok a.
#[global] Instance Result_bind : MBind Result := fun _ _ f m =>
  match m with Ok a => f a | Raise x => Raise x end.

(** ** class Errors *)

Record Errors : Type := mkErrors {
  messages : list string;
  path : list string;
  path_level : option Z
}.

(** [Errors.__init__] *)
Definition new_errors : Errors := mkErrors [] [] None.

Definition count (e : Errors) : Z := Z.of_nat (length (messages e)).

Definition add (msg : string) (e : Errors) : Errors :=
  let msg := "[/" ++ join "/" (path e) ++ "] " ++ msg in
  mkErrors (messages e ++ [msg]) (path e) (path_level e).

Definition back_out_errors (num : Z) (e : Errors) : Errors :=
  if 0 <? num
  then mkErrors (del_from (0 - num) (messages e)) (path e) (path_level e)
  else e.

Definition path_add_level (value : string) (e : Errors) : Errors :=
  mkErrors (messages e) (path e ++ [value]) (Some (Z.of_nat (length (path e)))).

Definition path_remove_level (e : Errors) : Result Errors :=
  match path_level e with
  | None => Raise (Exception "no path level")
  | Some level =>
      match norm_index (length (path e)) level with
      | None => Raise IndexError
      | Some i => Ok (mkErrors (messages e) (delete i (path e)) (Some (level - 1)))
      end
  end.

Definition path_update_value (value : string) (e : Errors) : Result Errors :=
  match path_level e with
  | None => Raise (Exception "no path level")
  | Some level =>
      match norm_index (length (path e)) level with
      | None => Raise IndexError
      | Some i => Ok (mkErrors (messages e) (<[i := value]> (path e)) (path_level e))
      end
  end.

(** ** The outside world

    What the validators ask of the interpreter and of the operating
    system: string conversion of compound values, [string.Template], the
    regular expression engine, the file system and the [qualities]
    module of FlexGet. *)

Record Env : Type := mkEnv {
  (** [unicode(v)] of a float, a list or a dictionary *)
  str_other : Data → string;
  (** [Template(msg).safe_substitute(key=k)] *)
  safe_substitute : string → string → string;
  (** [re.compile(p)] does not raise *)
  re_compiles : string → bool;
  (** [re.match(p, s) is not None], for a pattern that compiles *)
  re_match : string → string → bool;
  (** start of the first jinja placeholder of a path or, when there is
      none, of the first old style [%(name)s] placeholder *)
  placeholder_start : string → option nat;
  dirname : string → string;
  expanduser : string → string;
  isdir : string → bool;
  isfile : string → bool;
  (** [qualities.get(d)] and [qualities.Requirements(d)]: [Some msg] when
      they raise [ValueError(msg)] *)
  qualities_get : Data → option string;
  qualities_requirements : Data → option string
}.

(** ** The rule classes

    The concrete classes of the module, one constructor each. The base
    class [Validator] is registered too, under the name [validator];
    its [accept], [validateable], [validate] and [schema] only raise,
    and an instance of it is no node of the rule trees embedded
    here. *)

Inductive Validator : Type :=
| RootValidator (message : option string) (valid : list Validator)
| ChoiceValidator (message : option string) (valid : list Data) (valid_ic : list string)
| AnyValidator (message : option string)
| EqualsValidator (message : option string) (valid : Data)
| NumberValidator (message : option string)
| IntegerValidator (message : option string)
| DecimalValidator (message : option string)
| BooleanValidator (message : option string)
| TextValidator (message : option string)
| RegexpValidator (message : option string)
| RegexpMatchValidator (message : option string) (regexps reject_regexps : list string)
| IntervalValidator (message : option string) (regexps reject_regexps : list string)
| FileValidator (message : option string)
| PathValidator (message : option string) (allow_replacement allow_missing : bool)
| UrlValidator (message : option string) (protocols : list string)
| ListValidator (message : option string) (valid : list Validator)
| DictValidator (message : option string)
    (reject : list (string * option string))
    (any_key : list Validator)
    (required_keys : list string)
    (key_validators : list (Validator * Validator))
    (valid : list (string * list Validator))
| QualityValidator (message : option string)
| QualityRequirementsValidator (message : option string)
(** [LazyValidator]: [validator] is what [func()] returns, [built] tells
    whether an attribute of the wrapper has been read yet. *)
| LazyValidator (built : bool) (validator : Validator).

Fixpoint name (v : Validator) : string :=
  match v with
  | RootValidator _ _ => "root"
  | ChoiceValidator _ _ _ => "choice"
  | AnyValidator _ => "any"
  | EqualsValidator _ _ => "equals"
  | NumberValidator _ => "number"
  | IntegerValidator _ => "integer"
  | DecimalValidator _ => "decimal"
  | BooleanValidator _ => "boolean"
  | TextValidator _ => "text"
  | RegexpValidator _ => "regexp"
  | RegexpMatchValidator _ _ _ => "regexp_match"
  | IntervalValidator _ _ _ => "interval"
  | FileValidator _ => "file"
  | PathValidator _ _ _ => "path"
  | UrlValidator _ _ => "url"
  | ListValidator _ _ => "list"
  | DictValidator _ _ _ _ _ _ => "dict"
  | QualityValidator _ => "quality"
  | QualityRequirementsValidator _ => "quality_requirements"
  | LazyValidator _ v => name v
  end.

Fixpoint message (v : Validator) : option string :=
  match v with
  | RootValidator m _ | ChoiceValidator m _ _ | AnyValidator m
  | EqualsValidator m _ | NumberValidator m | IntegerValidator m
  | DecimalValidator m | BooleanValidator m | TextValidator m
  | RegexpValidator m | RegexpMatchValidator m _ _ | IntervalValidator m _ _
  | FileValidator m | PathValidator m _ _ | UrlValidator m _
  | ListValidator m _ | DictValidator m _ _ _ _ _
  | QualityValidator m | QualityRequirementsValidator m => m
  | LazyValidator _ v => message v
  end.

(** [validateable]: [File], [Path], [Url], [Quality] and
    [QualityRequirements] inherit it from [TextValidator], [Interval]
    from [RegexpMatchValidator]. *)
Fixpoint validateable (v : Validator) (data : Data) : bool :=
  match v with
  | RootValidator _ _ => true
  | ChoiceValidator _ _ _ => is_basestring data || is_int data || is_float data
  | AnyValidator _ => true
  | EqualsValidator _ _ => is_basestring data || is_int data || is_float data
  | NumberValidator _ => is_int data || is_float data || is_long data
  | IntegerValidator _ => is_int data
  | DecimalValidator _ => is_float data
  | BooleanValidator _ => is_bool data
  | TextValidator _ => is_basestring data
  | RegexpValidator _ => is_basestring data
  | RegexpMatchValidator _ _ _ | IntervalValidator _ _ _ => is_basestring data
  | FileValidator _ | PathValidator _ _ _ | UrlValidator _ _ => is_basestring data
  | ListValidator _ _ => is_list data
  | DictValidator _ _ _ _ _ _ => is_dict data
  | QualityValidator _ | QualityRequirementsValidator _ => is_basestring data
  | LazyValidator _ v => validateable v data
  end.

(** A Python truth test on an optional string: [None] and the empty
    string are false. *)
Definition truthy (m : option string) : option string :=
  match m with
  | Some s => if String.eqb s "" then None else Some s
  | None => None
  end.

(** A rule as [validate_item] sees it: the object and its bound
    [validate] method. *)
Record Rule : Type := mkRule {
  node : Validator;
  method : Data → Errors → Result (bool * Errors)
}.

Section WithEnv.

Context (env : Env).

(** [unicode(d)], also what [%s] prints. *)
Definition py_str (d : Data) : string :=
  match d with
  | DNone => "None"
  | DBool b => if b then "True" else "False"
  | DInt z | DLong z => pretty z
  | DStr s => s
  | _ => str_other env d
  end.

(** [', '.join(acceptable[:-2] + ['']) + ' or '.join(acceptable[-2:])] *)
Definition english_list (acceptable : list string) : string :=
  let n := (length acceptable - 2)%nat in
  join ", " (take n acceptable ++ [""]) ++ join " or " (drop n acceptable).

(** *** Validator.validate_item *)

(** The first loop: [Ok (true, e')] when a rule took the item, and
    [Ok (false, e')] when the loop ran to its end. *)
Fixpoint try_rules (item : Data) (rules : list Rule) (e : Errors)
  : Result (bool * Errors) :=
  match rules with
  | [] => Ok (false, e)
  | rule :: rest =>
      if validateable (node rule) item then
        '(ok, e1) ← method rule item e;
        if ok : bool then Ok (true, e1) else try_rules item rest e1
      else try_rules item rest e
  end.

(** [for rule in rules: if rule.message: self.errors.add(rule.message)] *)
Definition add_custom_messages (rules : list Rule) (e : Errors) : Errors :=
  foldl (fun e rule =>
           match truthy (message (node rule)) with
           | Some m => add m e
           | None => e
           end) e rules.

Definition validate_item (item : Data) (rules : list Rule) (e : Errors)
  : Result (bool * Errors) :=
  let count0 := count e in
  '(ok, e1) ← try_rules item rules e;
  if ok : bool then
    Ok (true, back_out_errors (count e1 - count0) e1)
  else if count0 =? count e1 then
    let e2 := add_custom_messages rules e1 in
    if count0 =? count e2 then
      let acceptable := english_list (map (fun r => name (node r)) rules) in
      let e3 := add ("must be a `" ++ acceptable ++ "` value") e2 in
      let e4 :=
        if is_dict item then add ("got a dict instead of " ++ acceptable) e3
        else if is_list item then add ("got a list instead of " ++ acceptable) e3
        else add ("value '" ++ py_str item ++ "' is not valid " ++ acceptable) e3 in
      Ok (false, e4)
    else Ok (false, e2)
  else Ok (false, e1).

(** *** The scalar rules *)

Definition ChoiceValidator_validate (valid : list Data) (valid_ic : list string)
    (data : Data) (e : Errors) : Result (bool * Errors) :=
  if existsb (py_eq data) valid then Ok (true, e)
  else if match data with
          | DStr s => existsb (String.eqb (lower s)) valid_ic
          | _ => false
          end then Ok (true, e)
  else
    let acceptable := sorted (map py_str valid ++ valid_ic) in
    Ok (false, add ("'" ++ py_str data ++ "' is not one of acceptable values: "
                      ++ join ", " acceptable) e).

Definition EqualsValidator_validate (valid : Data) (data : Data) (e : Errors)
  : Result (bool * Errors) :=
  Ok (py_eq valid data, e).

(** [valid = isinstance(data, ...); if not valid: add(...); return valid] *)
Definition check_type (valid : bool) (msg : string) (e : Errors)
  : Result (bool * Errors) :=
  if valid then Ok (true, e) else Ok (false, add msg e).

Definition NumberValidator_validate (data : Data) :=
  check_type (is_int data || is_float data || is_long data)
    ("value " ++ py_str data ++ " is not valid number").

Definition IntegerValidator_validate (data : Data) :=
  check_type (is_int data) ("value " ++ py_str data ++ " is not valid integer").

Definition DecimalValidator_validate (data : Data) :=
  check_type (is_float data) ("value " ++ py_str data ++ " is not valid decimal number").

Definition BooleanValidator_validate (data : Data) :=
  check_type (is_bool data) ("value " ++ py_str data ++ " is not valid boolean").

Definition TextValidator_validate (data : Data) :=
  check_type (is_basestring data) ("value " ++ py_str data ++ " is not valid text").

Definition RegexpValidator_validate (data : Data) (e : Errors)
  : Result (bool * Errors) :=
  match data with
  | DStr s =>
      if re_compiles env s then Ok (true, e)
      else Ok (false, add (s ++ " is not a valid regular expression") e)
  | _ => Ok (false, add "Value should be text" e)
  end.

Definition RegexpMatchValidator_validate (message : option string)
    (regexps reject_regexps : list string) (data : Data) (e : Errors)
  : Result (bool * Errors) :=
  match data with
  | DStr s =>
      if negb (existsb (fun r => re_match env r s) reject_regexps)
         && existsb (fun r => re_match env r s) regexps
      then Ok (true, e)
      else match truthy message with
           | Some m => Ok (false, add m e)
           | None => Ok (false, add (s ++ " does not match regexp") e)
           end
  | _ => Ok (false, add "Value should be text" e)
  end.

(** [os.path.expanduser] of anything but a string is an
    [AttributeError]. *)
Definition FileValidator_validate (data : Data) (e : Errors)
  : Result (bool * Errors) :=
  match data with
  | DStr s =>
      if isfile env (expanduser env s) then Ok (true, e)
      else Ok (false, add ("File " ++ s ++ " does not exist") e)
  | _ => Raise AttributeError
  end.

Definition PathValidator_validate (allow_replacement allow_missing : bool)
    (data : Data) (e : Errors) : Result (bool * Errors) :=
  path ← (if allow_replacement then
            match data with
            | DStr s =>
                match placeholder_start env s with
                | Some start => Ok (DStr (dirname env (String.substring 0 start s)))
                | None => Ok data
                end
            | _ => Raise TypeError
            end
          else Ok data);
  if allow_missing then Ok (true, e)
  else match path with
       | DStr p =>
           if isdir env (expanduser env p) then Ok (true, e)
           else Ok (false, add ("Path " ++ p ++ " does not exist") e)
       | _ => Raise AttributeError
       end.

Definition url_regexp (protocols : list string) : string :=
  "(" ++ join "|" protocols
      ++ "):\/\/(\w+:{0,1}\w*@)?(\S+)(:[0-9]+)?(\/|\/([\w#!:.?+=&%@!\-\/]))?".

Definition UrlValidator_validate (protocols : list string) (data : Data)
    (e : Errors) : Result (bool * Errors) :=
  let regexp := url_regexp protocols in
  match data with
  | DStr s =>
      if re_compiles env regexp then
        check_type (re_match env regexp s) ("value " ++ s ++ " is not a valid url") e
      else Raise ReError
  | _ => Ok (false, add "expecting text" e)
  end.

Definition QualityValidator_validate (data : Data) (e : Errors)
  : Result (bool * Errors) :=
  match qualities_get env data with
  | Some msg => Ok (false, add msg e)
  | None => Ok (true, e)
  end.

Definition QualityRequirementsValidator_validate (data : Data) (e : Errors)
  : Result (bool * Errors) :=
  match qualities_requirements env data with
  | Some msg =>
      Ok (false, add ("`" ++ py_str data ++ "` is not a valid quality requirement: "
                        ++ msg) e)
  | None => Ok (true, e)
  end.

(** *** The composite rules *)

Definition RootValidator_validate (valid : list Rule) (data : Data) :=
  validate_item data valid.

(** A [for] loop whose body works on the collector. *)
Fixpoint for_each {A} (body : A → Errors → Result Errors) (xs : list A)
    (e : Errors) : Result Errors :=
  match xs with
  | [] => Ok e
  | x :: rest => e1 ← body x e; for_each body rest e1
  end.

(** The body of the loop of [ListValidator.validate]. *)
Definition list_item (valid : list Rule) (data : list Data) (item : Data)
    (e : Errors) : Result Errors :=
  i ← match list_index item data with
      | Some i => Ok i
      | None => Raise ValueError
      end;
  e1 ← path_update_value ("list:" ++ pretty (Z.of_nat i)) e;
  '(_, e2) ← validate_item item valid e1;
  Ok e2.

Definition ListValidator_validate (valid : list Rule) (data : Data)
    (e : Errors) : Result (bool * Errors) :=
  match data with
  | DList l =>
      let e1 := path_add_level "?" e in
      let count0 := count e1 in
      e2 ← for_each (list_item valid l) l e1;
      e3 ← path_remove_level e2;
      Ok (count0 =? count e3, e3)
  | _ => Ok (false, add "value must be a list" e)
  end.

(** [m[key]] for a dictionary with string keys and any key: only a
    string can be equal to one of the keys. *)
Fixpoint dict_get {V} (key : string) (m : list (string * V)) : option V :=
  match m with
  | [] => None
  | (k, v) :: rest => if String.eqb k key then Some v else dict_get key rest
  end.

Definition get_key {V} (key : Data) (m : list (string * V)) : option V :=
  match key with
  | DStr s => dict_get s m
  | _ => None
  end.

(** The loop over [self.key_validators]: the value rule of the first
    pair whose key rule takes the key, [None] when the loop ends without
    [break]. *)
Fixpoint match_key (key : Data) (key_validators : list (Rule * Rule))
    (e : Errors) : Result (option Rule * Errors) :=
  match key_validators with
  | [] => Ok (None, e)
  | (key_validator, value_validator) :: rest =>
      if validateable (node key_validator) key then
        '(ok, e1) ← method key_validator key e;
        if ok : bool then Ok (Some value_validator, e1)
        else match_key key rest e1
      else match_key key rest e
  end.

Definition is_empty {A} (l : list A) : bool :=
  match l with [] => true | _ => false end.

(** The rules for the value of [key], most specific first: the rules of
    the key itself; or the value rule of the first key rule that takes
    the key; or the rules for any key. What the key rules that refused
    the key have logged is backed out when there are rules to use. *)
Definition key_rules (any_key : list Rule) (key_validators : list (Rule * Rule))
    (valid : list (string * list Rule)) (key : Data) (e : Errors)
  : Result (list Rule * Errors) :=
  match get_key key valid with
  | Some rules => Ok (rules, e)
  | None =>
      let errors_before_key_val := count e in
      '(found, e1) ← match_key key key_validators e;
      let rules :=
        match found with
        | Some value_validator => [value_validator]
        | None => any_key
        end in
      if is_empty rules then Ok (rules, e1)
      else Ok (rules, back_out_errors (count e1 - errors_before_key_val) e1)
  end.

(** [self.reject[key]] as a message. *)
Definition forbidden (msg : option string) (key : Data) : string :=
  match truthy msg with
  | Some m => safe_substitute env m (py_str key)
  | None => "key '" ++ py_str key ++ "' is forbidden here"
  end.

Definition not_recognized {V} (valid : list (string * V)) (key : Data) : string :=
  let error := "key '" ++ py_str key ++ "' is not recognized" in
  if is_empty valid then error
  else error ++ ", valid keys: " ++ join ", " (sorted (map fst valid)).

(** The body of the loop of [DictValidator.validate]. *)
Definition dict_item (reject : list (string * option string))
    (any_key : list Rule) (key_validators : list (Rule * Rule))
    (valid : list (string * list Rule)) (kv : Data * Data) (e : Errors)
  : Result Errors :=
  let '(key, value) := kv in
  e1 ← path_update_value ("dict:" ++ py_str key) e;
  match get_key key reject with
  | Some msg => Ok (add (forbidden msg key) e1)
  | None =>
      '(rules, e2) ← key_rules any_key key_validators valid key e1;
      if is_empty rules then Ok (add (not_recognized valid key) e2)
      else
        '(_, e3) ← validate_item value rules e2;
        Ok e3
  end.

(** [required in data] *)
Definition has_key (key : string) (items : list (Data * Data)) : bool :=
  existsb (fun kv => py_eq (DStr key) (fst kv)) items.

Definition add_required (required_keys : list string)
    (items : list (Data * Data)) (e : Errors) : Errors :=
  foldl (fun e required =>
           if has_key required items then e
           else add ("key '" ++ required ++ "' required") e) e required_keys.

Definition DictValidator_validate (reject : list (string * option string))
    (any_key : list Rule) (required_keys : list string)
    (key_validators : list (Rule * Rule))
    (valid : list (string * list Rule)) (data : Data) (e : Errors)
  : Result (bool * Errors) :=
  match data with
  | DDict items =>
      let count0 := count e in
      let e1 := path_add_level "?" e in
      e2 ← for_each (dict_item reject any_key key_validators valid) items e1;
      e3 ← path_remove_level e2;
      let e4 := add_required required_keys items e3 in
      Ok (count0 =? count e4, e4)
  | _ => Ok (false, add "value must be a dictionary" e)
  end.

(** *** validate, by dynamic dispatch on the class of the rule *)

Fixpoint validate (v : Validator) : Data → Errors → Result (bool * Errors) :=
  let rule := fun r => mkRule r (validate r) in
  match v with
  | RootValidator _ valid => RootValidator_validate (map rule valid)
  | ChoiceValidator _ valid valid_ic => ChoiceValidator_validate valid valid_ic
  | AnyValidator _ => fun _ e => Ok (true, e)
  | EqualsValidator _ valid => EqualsValidator_validate valid
  | NumberValidator _ => NumberValidator_validate
  | IntegerValidator _ => IntegerValidator_validate
  | DecimalValidator _ => DecimalValidator_validate
  | BooleanValidator _ => BooleanValidator_validate
  | TextValidator _ => TextValidator_validate
  | RegexpValidator _ => RegexpValidator_validate
  | RegexpMatchValidator message regexps reject_regexps
  | IntervalValidator message regexps reject_regexps =>
      RegexpMatchValidator_validate message regexps reject_regexps
  | FileValidator _ => FileValidator_validate
  | PathValidator _ allow_replacement allow_missing =>
      PathValidator_validate allow_replacement allow_missing
  | UrlValidator _ protocols => UrlValidator_validate protocols
  | ListValidator _ valid => ListValidator_validate (map rule valid)
  | DictValidator _ reject any_key required_keys key_validators valid =>
      DictValidator_validate reject (map rule any_key) required_keys
        (map (fun p => (rule (fst p), rule (snd p))) key_validators)
        (map (fun p => (fst p, map rule (snd p))) valid)
  | QualityValidator _ => QualityValidator_validate
  | QualityRequirementsValidator _ => QualityRequirementsValidator_validate
  | LazyValidator _ validator => validate validator
  end.

(** A rule object: the validator with its [validate] method. *)
Definition rule (v : Validator) : Rule := mkRule v (validate v).

End WithEnv.

(** ** Building rules *)

(** [factory(name)] on the names of the concrete classes and on the
    names that are not registered: the registry maps the [name]
    attribute of each class to the class; the instance is made with the
    defaults of [__init__]. The name [validator] of the base class is
    registered as well; its instance is no rule of the trees embedded
    here, and nothing below is stated of [factory] at that name. *)
Definition factory (kind : string) : Result Validator :=
  if String.eqb kind "root" then Ok (RootValidator None [])
  else if String.eqb kind "choice" then Ok (ChoiceValidator None [] [])
  else if String.eqb kind "any" then Ok (AnyValidator None)
  else if String.eqb kind "equals" then Ok (EqualsValidator None (DList []))
  else if String.eqb kind "number" then Ok (NumberValidator None)
  else if String.eqb kind "integer" then Ok (IntegerValidator None)
  else if String.eqb kind "decimal" then Ok (DecimalValidator None)
  else if String.eqb kind "boolean" then Ok (BooleanValidator None)
  else if String.eqb kind "text" then Ok (TextValidator None)
  else if String.eqb kind "regexp" then Ok (RegexpValidator None)
  else if String.eqb kind "regexp_match" then Ok (RegexpMatchValidator None [] [])
  else if String.eqb kind "interval" then
    Ok (IntervalValidator
          (Some "should be in format 'x (seconds|minutes|hours|days|weeks)'")
          ["^\d+ (second|minute|hour|day|week)s?$"] [])
  else if String.eqb kind "file" then Ok (FileValidator None)
  else if String.eqb kind "path" then Ok (PathValidator None false false)
  else if String.eqb kind "url" then
    Ok (UrlValidator None ["ftp"; "http"; "https"; "file"])
  else if String.eqb kind "list" then Ok (ListValidator None [])
  else if String.eqb kind "dict" then Ok (DictValidator None [] [] [] [] [])
  else if String.eqb kind "quality" then Ok (QualityValidator None)
  else if String.eqb kind "quality_requirements" then
    Ok (QualityRequirementsValidator None)
  else Raise (Exception ("Asked unknown validator '" ++ kind ++ "'")).

(** The [name] attributes of the concrete classes, in the order of the
    module. *)
Definition concrete_kinds : list string :=
  ["root"; "choice"; "any"; "equals"; "number"; "integer"; "decimal"; "boolean";
   "text"; "regexp"; "regexp_match"; "interval"; "file"; "path"; "url"; "list";
   "dict"; "quality"; "quality_requirements"].

(** [ChoiceValidator.accept(value, ignore_case)] on the choice rule whose
    attributes are [message], [valid] and [valid_ic]. *)
Definition ChoiceValidator_accept (value : Data) (ignore_case : bool)
    (message : option string) (valid : list Data) (valid_ic : list string)
  : Result Validator :=
  if negb (is_basestring value || is_int value || is_float value) then
    Raise (Exception "Choice validator only accepts strings and numbers")
  else
    match value with
    | DStr s =>
        if ignore_case then Ok (ChoiceValidator message valid (valid_ic ++ [lower s]))
        else Ok (ChoiceValidator message (valid ++ [value]) valid_ic)
    | _ => Ok (ChoiceValidator message (valid ++ [value]) valid_ic)
    end.

(** [self.valid.setdefault(key, []).append(v)] *)
Fixpoint setdefault_append {V} (key : string) (v : V)
    (m : list (string * list V)) : list (string * list V) :=
  match m with
  | [] => [(key, [v])]
  | (k, vs) :: rest =>
      if String.eqb k key then (k, (vs ++ [v])%list) :: rest
      else (k, vs) :: setdefault_append key v rest
  end.

(** [DictValidator.require_key] *)
Definition require_key (key : string) (required_keys : list string) : list string :=
  if existsb (String.eqb key) required_keys then required_keys
  else (required_keys ++ [key])%list.

(** [DictValidator.accept(value, key, required)], where [value] is a rule
    already built. *)
Definition DictValidator_accept (value : Validator) (key : string)
    (required : bool) (self : Validator) : Result Validator :=
  match self with
  | DictValidator message reject any_key required_keys key_validators valid =>
      if String.eqb key "" then Raise ValueError
      else
        Ok (DictValidator message reject any_key
              (if required then require_key key required_keys else required_keys)
              key_validators (setdefault_append key value valid))
  | _ => Raise TypeError
  end.

(** ** Schema documents *)

Inductive Schema : Type :=
| SObject (fields : list (string * Schema))
| SArray (items : list Schema)
| SString (s : string)
| SFalse
| SValue (d : Data).

(** What [any_schema] may be given: a list of documents, or a generator
    expression over rules. *)
Inductive Iterable : Type :=
| PyList (l : list Schema)
| PyGenerator (l : list Validator).

(** [len] of a generator is a [TypeError]. *)
Definition any_schema (schema_list : Iterable) : Result Schema :=
  match schema_list with
  | PyList [s] => Ok s
  | PyList l => Ok (SObject [("anyOf", SArray l)])
  | PyGenerator _ => Raise TypeError
  end.

(** [d[key] = value] *)
Fixpoint set_field (key : string) (value : Schema)
    (d : list (string * Schema)) : list (string * Schema) :=
  match d with
  | [] => [(key, value)]
  | (k, v) :: rest =>
      if String.eqb k key then (k, value) :: rest
      else (k, v) :: set_field key value rest
  end.

Definition set_item (key : string) (value : Schema) (d : Schema) : Result Schema :=
  match d with
  | SObject fields => Ok (SObject (set_field key value fields))
  | _ => Raise TypeError
  end.

(** [[f(x) for x in l]] where [f] may raise. *)
Definition comprehension {A B} (f : A → Result B) : list A → Result (list B) :=
  fix go (l : list A) : Result (list B) :=
    match l with
    | [] => Ok []
    | x :: rest => y ← f x; ys ← go rest; Ok (y :: ys)
    end.

(** The loop of [DictValidator.schema] that fills [properties]. *)
Fixpoint dict_properties (valid : list (string * list Validator))
    (properties : list (string * Schema)) : Result (list (string * Schema)) :=
  match valid with
  | [] => Ok properties
  | (key, validators) :: rest =>
      if is_empty validators then dict_properties rest properties
      else
        s ← any_schema (PyGenerator validators);
        dict_properties rest (set_field key s properties)
  end.

Fixpoint schema (v : Validator) : Result Schema :=
  match v with
  | RootValidator _ valid =>
      l ← comprehension schema valid; any_schema (PyList l)
  | ChoiceValidator _ valid valid_ic =>
      Ok (SObject [("enum", SArray (map SValue (valid ++ map DStr valid_ic)))])
  | AnyValidator _ => Ok (SObject [])
  | EqualsValidator _ valid => Ok (SObject [("enum", SArray [SValue valid])])
  | NumberValidator _ => Ok (SObject [("type", SString "number")])
  | IntegerValidator _ => Ok (SObject [("type", SString "integer")])
  | DecimalValidator _ => Ok (SObject [("type", SString "number")])
  | BooleanValidator _ => Ok (SObject [("type", SString "boolean")])
  | TextValidator _ => Ok (SObject [("type", SString "string")])
  | RegexpValidator _ =>
      Ok (SObject [("type", SString "string"); ("format", SString "regex")])
  | RegexpMatchValidator _ regexps reject_regexps
  | IntervalValidator _ regexps reject_regexps =>
      s ← any_schema (PyList (map (fun r =>
             SObject [("type", SString "string"); ("pattern", SString r)]) regexps));
      if is_empty reject_regexps then Ok s
      else
        n ← any_schema (PyList (map (fun r =>
               SObject [("pattern", SString r)]) reject_regexps));
        set_item "not" n s
  | FileValidator _ =>
      Ok (SObject [("type", SString "string"); ("format", SString "file")])
  | PathValidator _ _ _ =>
      Ok (SObject [("type", SString "string"); ("format", SString "path")])
  | UrlValidator _ _ =>
      Ok (SObject [("type", SString "string"); ("format", SString "uri")])
  | ListValidator _ valid =>
      l ← comprehension schema valid;
      items ← any_schema (PyList l);
      Ok (SObject [("type", SString "array"); ("items", items)])
  | DictValidator _ _ any_key required_keys _ valid =>
      properties ← dict_properties valid [];
      let schema0 := [("type", SString "object"); ("properties", SObject properties)] in
      let schema1 :=
        if is_empty required_keys then schema0
        else set_field "required" (SArray (map SString required_keys)) schema0 in
      if is_empty any_key then
        Ok (SObject (set_field "additionalProperties" SFalse schema1))
      else
        l ← comprehension schema any_key;
        a ← any_schema (PyList l);
        Ok (SObject (set_field "additionalProperties" a schema1))
  | QualityValidator _ =>
      Ok (SObject [("type", SString "string"); ("format", SString "quality")])
  | QualityRequirementsValidator _ =>
      Ok (SObject [("type", SString "string"); ("format", SString "qualityRequirements")])
  | LazyValidator built validator =>
      if built then schema validator else Ok (SObject [])
  end.

(** ** An environment for running examples

    No file or directory exists, every string compiles as a pattern and
    matches nothing, and every quality string is known. *)
Definition bare_env : Env :=
  {| str_other := fun _ => "<object>";
     safe_substitute := fun msg _ => msg;
     re_compiles := fun _ => true;
     re_match := fun _ _ => false;
     placeholder_start := fun _ => None;
     dirname := fun s => s;
     expanduser := fun s => s;
     isdir := fun _ => false;
     isfile := fun _ => false;
     qualities_get := fun _ => None;
     qualities_requirements := fun _ => None |}.

(** The same, but the pattern a url rule makes of the one protocol [(]
    does not compile: its parentheses do not match. *)
Definition paren_env : Env :=
  {| str_other := str_other bare_env;
     safe_substitute := safe_substitute bare_env;
     re_compiles := fun regexp => negb (String.eqb regexp (url_regexp ["("]));
     re_match := re_match bare_env;
     placeholder_start := placeholder_start bare_env;
     dirname := dirname bare_env;
     expanduser := expanduser bare_env;
     isdir := isdir bare_env;
     isfile := isfile bare_env;
     qualities_get := qualities_get bare_env;
     qualities_requirements := qualities_requirements bare_env |}.

(** The same, but for patterns: a pattern matches the string that is
    equal to it, and no other. *)
Definition literal_env : Env :=
  {| str_other := str_other bare_env;
     safe_substitute := safe_substitute bare_env;
     re_compiles := re_compiles bare_env;
     re_match := fun regexp s => String.eqb regexp s;
     placeholder_start := placeholder_start bare_env;
     dirname := dirname bare_env;
     expanduser := expanduser bare_env;
     isdir := isdir bare_env;
     isfile := isfile bare_env;
     qualities_get := qualities_get bare_env;
     qualities_requirements := qualities_requirements bare_env |}.

(** ** Using a collector

    The methods of [Errors] a caller may invoke, and a sequence of such
    calls run on a collector. *)

Inductive call : Type :=
| CallAdd (msg : string)
| CallBackOut (num : Z)
| CallOpen (value : string)
| CallUpdate (value : string)
| CallClose.

Definition run_call (c : call) (e : Errors) : Result Errors :=
  match c with
  | CallAdd msg => Ok (add msg e)
  | CallBackOut num => Ok (back_out_errors num e)
  | CallOpen value => Ok (path_add_level value e)
  | CallUpdate value => path_update_value value e
  | CallClose => path_remove_level e
  end.

Fixpoint run_calls (cs : list call) (e : Errors) : Result Errors :=
  match cs with
  | [] => Ok e
  | c :: rest => e1 ← run_call c e; run_calls rest e1
  end.

Definition is_open (c : call) : bool :=
  match c with CallOpen _ => true | _ => false end.
Definition is_close (c : call) : bool :=
  match c with CallClose => true | _ => false end.

(** How many levels a sequence of calls opens, and how many it closes. *)
Definition opens (cs : list call) : Z :=
  Z.of_nat (length (List.filter is_open cs)).
Definition closes (cs : list call) : Z :=
  Z.of_nat (length (List.filter is_close cs)).

(** The marker of a collector is in step with its path: it is unset on
    an empty path, or it is the index of the last segment. *)
Definition in_step (e : Errors) : Prop :=
  (path_level e = None ∧ path e = []) ∨
  path_level e = Some (Z.of_nat (length (path e)) - 1).

(** ** Notions used to state the properties *)

(** The rules without children. *)
Definition scalar (v : Validator) : Prop :=
  match v with
  | RootValidator _ _ | ListValidator _ _ | DictValidator _ _ _ _ _ _
  | LazyValidator _ _ => False
  | _ => True
  end.

(** The message [add] appends to a collector whose path is [p]. *)
Definition located (p : list string) (msg : string) : string :=
  "[/" ++ join "/" p ++ "] " ++ msg.

(** The marker points at the last segment of the path. *)
Definition marked (e : Errors) : Prop :=
  path_level e = Some (Z.of_nat (length (path e)) - 1).

(** [e'] is [e] with the messages [added] appended: same path, and the
    marker still points at the last segment if it did. *)
Definition extends (e e' : Errors) (added : list string) : Prop :=
  messages e' = (messages e ++ added)%list ∧
  path e' = path e ∧
  (marked e → marked e').

(** A computation on the collector is steady when it only appends
    messages, and its result and the messages it appends depend on the
    collector through its path alone. *)
Definition steady {A} (f : Errors → Result (A * Errors)) : Prop :=
  ∀ e a e', f e = Ok (a, e') →
    ∃ added, extends e e' added ∧
      ∀ e2, path e2 = path e →
        ∃ e2', f e2 = Ok (a, e2') ∧ extends e2 e2' added.

(** What a rule needs for the loops that use it to be steady. *)
Definition steady_rule (r : Rule) : Prop := ∀ d, steady (method r d).

(** The same for a computation that returns the collector alone. *)
Definition steadyE (g : Errors → Result Errors) : Prop :=
  steady (λ e, e' ← g e; Ok (tt, e')).

(** The three families of rules of a dictionary rule are steady. *)
Definition steady_dict (any_key : list Rule) (key_validators : list (Rule * Rule))
    (valid : list (string * list Rule)) : Prop :=
  Forall steady_rule any_key ∧
  Forall (λ p, steady_rule (fst p) ∧ steady_rule (snd p)) key_validators ∧
  Forall (λ p, Forall steady_rule (snd p)) valid.

(** [validate] of rule [v] on [item] returns [b] from some collector
    whose path is [p]. *)
Definition returns_at (env : Env) (p : list string) (v : Validator)
    (item : Data) (b : bool) : Prop :=
  ∃ e e', path e = p ∧ validate env v item e = Ok (b, e').

(** At path [p] rule [v] takes [item]: it applies to it and validates
    it. *)
Definition takes (env : Env) (p : list string) (v : Validator) (item : Data) : Prop :=
  validateable v item = true ∧ returns_at env p v item true.

(** At path [p] rule [v] refuses [item]: it does not apply to it, or it
    does not validate it. *)
Definition refuses (env : Env) (p : list string) (v : Validator) (item : Data) : Prop :=
  validateable v item = false ∨ returns_at env p v item false.

(** The values that are not containers. *)
Definition atom (d : Data) : Prop :=
  match d with DList _ | DDict _ => False | _ => True end.





(** Every url rule of the tree has protocols that make a pattern the
    [re] module compiles. *)
Fixpoint well_built (env : Env) (v : Validator) : bool :=
  match v with
  | UrlValidator _ protocols => re_compiles env (url_regexp protocols)
  | RootValidator _ valid | ListValidator _ valid => forallb (well_built env) valid
  | DictValidator _ _ any_key _ key_validators valid =>
      forallb (well_built env) any_key
      && forallb (λ p, well_built env (fst p) && well_built env (snd p)) key_validators
      && forallb (λ p, forallb (well_built env) (snd p)) valid
  | LazyValidator _ v => well_built env v
  | _ => true
  end.

(** A rule whose [validate] returns on every value it applies to. *)
Definition sound_rule (r : Rule) : Prop :=
  ∀ d, validateable (node r) d = true → ∀ e, ∃ b e', method r d e = Ok (b, e').

Definition sound_dict (any_key : list Rule) (key_validators : list (Rule * Rule))
    (valid : list (string * list Rule)) : Prop :=
  Forall sound_rule any_key ∧
  Forall (λ p, sound_rule (fst p) ∧ sound_rule (snd p)) key_validators ∧
  Forall (λ p, Forall sound_rule (snd p)) valid.

(** The rules of a dictionary rule as rule objects. *)
Definition bound_pairs (env : Env) (kvs : list (Validator * Validator))
  : list (Rule * Rule) :=
  map (λ p, (rule env (fst p), rule env (snd p))) kvs.

Definition bound_lists (env : Env) (valid : list (string * list Validator))
  : list (string * list Rule) :=
  map (λ p, (fst p, map (rule env) (snd p))) valid.

(** The rules whose [validate] tests the type of the value, as their
    [validateable] does, before anything else: all but [equals] and
    [choice], which compare, [path], which may skip the test, and
    [quality] and [quality_requirements], which hand the value to the
    [qualities] module. *)
Fixpoint type_tested (v : Validator) : bool :=
  match v with
  | EqualsValidator _ _ | ChoiceValidator _ _ _ | PathValidator _ _ _
  | QualityValidator _ | QualityRequirementsValidator _ => false
  | LazyValidator _ v => type_tested v
  | _ => true
  end.

(** The rules whose [validate] logs a message whenever it fails: all but
    [equals]. *)
Fixpoint logs_on_failure (v : Validator) : bool :=
  match v with
  | EqualsValidator _ _ => false
  | LazyValidator _ v => logs_on_failure v
  | _ => true
  end.

(** The custom messages of a list of rules. *)
Definition custom_messages (rules : list Rule) : list string :=
  omap (λ r, truthy (message (node r))) rules.

(** What [validate_item] logs at path [p] when no rule took the item and
    none logged anything. *)
Definition item_failure (env : Env) (item : Data) (rules : list Rule)
    (p : list string) : list string :=
  match custom_messages rules with
  | [] =>
      let acceptable := english_list (map (λ r, name (node r)) rules) in
      [ located p ("must be a `" ++ acceptable ++ "` value");
        located p
          (if is_dict item then "got a dict instead of " ++ acceptable
           else if is_list item then "got a list instead of " ++ acceptable
           else "value '" ++ py_str env item ++ "' is not valid " ++ acceptable) ]
  | custom => map (located p) custom
  end.

(** What [validate_item] leaves in the collector, given the outcome [ok]
    of its first loop and the messages [tried] that loop has logged. *)
Definition item_added (env : Env) (item : Data) (rules : list Rule)
    (p : list string) (ok : bool) (tried : list string) : list string :=
  if ok then []
  else match tried with
       | [] => item_failure env item rules p
       | _ => tried
       end.

(** What the check of the required keys logs at path [p]. *)
Definition missing_required (required_keys : list string)
    (items : list (Data * Data)) (p : list string) : list string :=
  map (λ k, located p ("key '" ++ k ++ "' required"))
    (List.filter (λ k, negb (has_key k items)) required_keys).

(** The path without its last segment. *)
Definition parent_path (p : list string) : list string :=
  take (length p - 1) p.

(** The body of a loop that runs inside an opened path segment: it
    needs the marker on the last segment, rewrites that segment only,
    and is steady otherwise. *)
Definition scoped (body : Errors → Result Errors) : Prop :=
  ∀ e e', marked e → path e ≠ [] → body e = Ok e' →
    marked e' ∧ path e' ≠ [] ∧ parent_path (path e') = parent_path (path e) ∧
    ∃ added, messages e' = (messages e ++ added)%list ∧
      ∀ e2, marked e2 → path e2 ≠ [] →
        parent_path (path e2) = parent_path (path e) →
        ∃ e2', body e2 = Ok e2' ∧ messages e2' = (messages e2 ++ added)%list.

(** Run in an opened segment under the path [p], the loop [g] returns
    and appends the messages [added]. *)
Definition logs (g : Errors → Result Errors) (p added : list string) : Prop :=
  ∀ e, marked e → path e ≠ [] → parent_path (path e) = p →
    ∃ e', g e = Ok e' ∧ messages e' = (messages e ++ added)%list ∧
          marked e' ∧ path e' ≠ [] ∧ parent_path (path e') = p.

(** ** More of the module *)

(** What [accept] may be given for a child: the name of a kind, a rule
    already built, or a function that returns a rule. *)
Inductive ChildSpec : Type :=
| ByName (kind : string)
| Built (v : Validator)
| Callable (result : Validator).

(** [Validator.get_validator(value)], without keyword arguments. *)
Definition get_validator (value : ChildSpec) : Result Validator :=
  match value with
  | Built v => Ok v
  | Callable v => Ok (LazyValidator false v)
  | ByName kind => factory kind
  end.

(** [RootValidator.accept] and [ListValidator.accept]: the rule after the
    call. In Python the call returns the child, which the rule holds
    from then on; a method of a class called with an object of another
    class is a [TypeError]. *)
Definition RootValidator_accept (value : ChildSpec) (self : Validator)
  : Result Validator :=
  match self with
  | RootValidator m valid =>
      v ← get_validator value; Ok (RootValidator m (valid ++ [v]))
  | _ => Raise TypeError
  end.

Definition ListValidator_accept (value : ChildSpec) (self : Validator)
  : Result Validator :=
  match self with
  | ListValidator m valid =>
      v ← get_validator value; Ok (ListValidator m (valid ++ [v]))
  | _ => Raise TypeError
  end.

(** [Validator.add_root_parent]; a [LazyValidator] hands the call to the
    rule it wraps. *)
Fixpoint add_root_parent (self : Validator) : Validator :=
  match self with
  | LazyValidator _ v => add_root_parent v
  | _ => if String.eqb (name self) "root" then self else RootValidator None [self]
  end.

(** [ChoiceValidator.accept_choices(values, ignore_case)] *)
Fixpoint ChoiceValidator_accept_choices (values : list Data) (ignore_case : bool)
    (message : option string) (valid : list Data) (valid_ic : list string)
  : Result Validator :=
  match values with
  | [] => Ok (ChoiceValidator message valid valid_ic)
  | value :: rest =>
      v ← ChoiceValidator_accept value ignore_case message valid valid_ic;
      match v with
      | ChoiceValidator message valid valid_ic =>
          ChoiceValidator_accept_choices rest ignore_case message valid valid_ic
      | _ => Raise TypeError
      end
  end.

(** [d[key] = value] on a dictionary with string keys. *)
Fixpoint dict_set {V} (key : string) (value : V) (d : list (string * V))
  : list (string * V) :=
  match d with
  | [] => [(key, value)]
  | (k, v) :: rest =>
      if String.eqb k key then (k, value) :: rest
      else (k, v) :: dict_set key value rest
  end.

(** [DictValidator.reject_key(key, message)] and [reject_keys]. *)
Definition DictValidator_reject_key (key : string) (msg : option string)
    (self : Validator) : Result Validator :=
  match self with
  | DictValidator message reject any_key required_keys key_validators valid =>
      Ok (DictValidator message (dict_set key msg reject) any_key required_keys
            key_validators valid)
  | _ => Raise TypeError
  end.

Fixpoint DictValidator_reject_keys (keys : list string) (msg : option string)
    (self : Validator) : Result Validator :=
  match keys with
  | [] => match self with
          | DictValidator _ _ _ _ _ _ => Ok self
          | _ => Raise TypeError
          end
  | key :: rest =>
      v ← DictValidator_reject_key key msg self;
      DictValidator_reject_keys rest msg v
  end.

(** [DictValidator.accept_any_key(value)] *)
Definition DictValidator_accept_any_key (value : ChildSpec) (self : Validator)
  : Result Validator :=
  match self with
  | DictValidator message reject any_key required_keys key_validators valid =>
      v ← get_validator value;
      Ok (DictValidator message reject (any_key ++ [v]) required_keys
            key_validators valid)
  | _ => Raise TypeError
  end.

(** [RegexpMatchValidator.add_regexp], [accept(regexp, message=...)] and
    [reject(regexp)] on the rule with the given attributes; a compiled
    pattern is kept as its source. *)
Definition add_regexp (env : Env) (regexp_list : list string) (regexp : string)
  : Result (list string) :=
  if re_compiles env regexp then Ok (regexp_list ++ [regexp])%list
  else Raise ValueError.

Definition RegexpMatchValidator_accept (env : Env) (regexp : string)
    (kw_message : option string) (message : option string)
    (regexps reject_regexps : list string) : Result Validator :=
  regexps ← add_regexp env regexps regexp;
  Ok (RegexpMatchValidator
        (match truthy kw_message with Some m => Some m | None => message end)
        regexps reject_regexps).

Definition RegexpMatchValidator_reject (env : Env) (regexp : string)
    (message : option string) (regexps reject_regexps : list string)
  : Result Validator :=
  reject_regexps ← add_regexp env reject_regexps regexp;
  Ok (RegexpMatchValidator message regexps reject_regexps).

(** [self.messages] after [add] was called with each message of the
    list in turn. *)
Definition add_all (msgs : list string) (e : Errors) : Errors :=
  foldl (λ e msg, add msg e) e msgs.

(** A rule tree whose [schema] meets a mapping rule that has rules for
    a key. A [LazyValidator] that is not built yet hides what it
    wraps. *)
Fixpoint keyed (v : Validator) : bool :=
  match v with
  | RootValidator _ valid | ListValidator _ valid => existsb keyed valid
  | DictValidator _ _ any_key _ _ valid =>
      existsb (λ p, negb (is_empty (snd p))) valid || existsb keyed any_key
  | LazyValidator built v => built && keyed v
  | _ => false
  end.

(** ** The require_field plugin ([flexget/plugins/filter_require_field.py]) *)

(** [FilterRequireField.validator]. The source calls
    [root.accept('list').accept('text')]: the list rule is handed to the
    root first and accepts [text] afterwards, and the root holds that
    very object. *)
Definition FilterRequireField_validator : Result Validator :=
  root ← factory "root";
  root ← RootValidator_accept (ByName "text") root;
  child ← get_validator (ByName "list");
  child ← ListValidator_accept (ByName "text") child;
  RootValidator_accept (Built child) root.

(** An entry of a feed, as the items of the dictionary it is. *)
Definition Entry : Type := list (Data * Data).

(** [field in entry]; a list or a dictionary cannot be hashed. *)
Definition entry_has (field : Data) (entry : Entry) : Result bool :=
  match field with
  | DList _ | DDict _ => Raise TypeError
  | _ => Ok (existsb (λ kv, py_eq field (fst kv)) entry)
  end.

(** What [for field in config] runs over. *)
Definition iterate (config : Data) : Result (list Data) :=
  match config with
  | DList l => Ok l
  | DDict items => Ok (map fst items)
  | DStr s => Ok (map (λ c, DStr (String c EmptyString)) (String.list_ascii_of_string s))
  | _ => Raise TypeError
  end.

(** The inner loop of [on_feed_filter]; [rejected] collects the calls of
    [feed.reject], which belongs to the feed and is taken to leave
    [feed.entries] alone while the loops run. *)
Fixpoint check_fields (env : Env) (entry : Entry) (fields : list Data)
    (rejected : list (Entry * string)) : Result (list (Entry * string)) :=
  match fields with
  | [] => Ok rejected
  | field :: rest =>
      present ← entry_has field entry;
      check_fields env entry rest
        (if present : bool then rejected
         else (rejected ++ [(entry, ("Required field " ++ py_str env field
                                      ++ " is not present")%string)])%list)
  end.

Fixpoint filter_entries (env : Env) (config : Data) (entries : list Entry)
    (rejected : list (Entry * string)) : Result (list (Entry * string)) :=
  match entries with
  | [] => Ok rejected
  | entry :: rest =>
      fields ← iterate config;
      rejected ← check_fields env entry fields rejected;
      filter_entries env config rest rejected
  end.

(** [FilterRequireField.on_feed_filter] with [feed.config['require_field']]
    and [feed.entries]: the calls of [feed.reject], in order. *)
Definition on_feed_filter (env : Env) (config : Data) (entries : list Entry)
  : Result (list (Entry * string)) :=
  let config := if is_basestring config then DList [config] else config in
  filter_entries env config entries [].

(** The configurations the plugin means to accept: a field name, or a
    list of field names. *)
Definition field_names (config : Data) : option (list string) :=
  match config with
  | DStr s => Some [s]
  | DList l => mapM (λ d, match d with DStr s => Some s | _ => None end) l
  | _ => None
  end.

(** The outcome of [schema] on a rule: it raises on a tree in which it
    meets a mapping rule with rules for a key, and returns an object
    otherwise. *)
Definition schema_outcome (v : Validator) : Prop :=
  if keyed v then schema v = Raise TypeError
  else ∃ fields, schema v = Ok (SObject fields).

(** * Properties *)

Open Scope list_scope.

(** ** The collector *)

Lemma del_from_neg {A} (n : Z) (l : list A) :
  0 < n → del_from (0 - n) l = take (length l - Z.to_nat n) l.
Proof.
  intros Hn. unfold del_from.
  destruct (Z.ltb_spec (0 - n) 0) as [_|?]; [|lia].
  f_equal. lia.
Qed.

Lemma back_out_errors_messages (n : Z) (e : Errors) :
  messages (back_out_errors n e) = take (length (messages e) - Z.to_nat n) (messages e).
Proof.
  unfold back_out_errors. destruct (Z.ltb_spec 0 n) as [Hn|Hn]; simpl.
  - by apply del_from_neg.
  - replace (Z.to_nat n) with O by lia. rewrite Nat.sub_0_r. by rewrite firstn_all.
Qed.

Lemma back_out_errors_path (n : Z) (e : Errors) :
  path (back_out_errors n e) = path e ∧
  path_level (back_out_errors n e) = path_level e.
Proof. unfold back_out_errors. by destruct (0 <? n). Qed.

(** Backing out what was appended gives back the list of before. *)
Lemma back_out_errors_appended (e : Errors) (base added : list string) :
  messages e = (base ++ added)%list →
  back_out_errors (count e - Z.of_nat (length base)) e
  = mkErrors base (path e) (path_level e).
Proof.
  intros Hm. unfold back_out_errors, count. rewrite Hm, length_app.
  destruct (Z.ltb_spec 0 (Z.of_nat (length base + length added) - Z.of_nat (length base)))
    as [Hn|Hn].
  - f_equal. rewrite del_from_neg by done. rewrite length_app.
    replace (length base + length added - _)%nat with (length base) by lia.
    by rewrite take_app_length.
  - assert (added = []) as -> by (destruct added; [done | simpl in Hn; lia]).
    destruct e; simpl in *. rewrite app_nil_r in Hm. by subst.
Qed.

(** C10: [back_out_errors(num)] with [num <= 0] changes nothing; with
    [0 < num <= count] it removes the last [num] messages and nothing
    else: the messages before them keep their positions, and path and
    marker are untouched. *)
Theorem back_out_errors_frame (e : Errors) (num : Z) :
  (num ≤ 0 → back_out_errors num e = e) ∧
  (0 < num ≤ count e →
   ∃ removed : list string,
     Z.of_nat (length removed) = num ∧
     messages e = (messages (back_out_errors num e) ++ removed)%list ∧
     (∀ i : nat, (Z.of_nat i < count e - num) →
        messages (back_out_errors num e) !! i = messages e !! i) ∧
     path (back_out_errors num e) = path e ∧
     path_level (back_out_errors num e) = path_level e).
Proof.
  split.
  - intros Hn. unfold back_out_errors. by destruct (Z.ltb_spec 0 num); [lia|].
  - unfold count. intros [Hn Hle].
    set (k := (length (messages e) - Z.to_nat num)%nat).
    exists (drop k (messages e)).
    rewrite back_out_errors_messages. fold k.
    split; [|split; [|split; [|apply back_out_errors_path]]].
    + rewrite length_drop. unfold k. lia.
    + by rewrite take_drop.
    + intros i Hi. apply lookup_take_lt. unfold k. lia.
Qed.

Lemma norm_index_last (n : nat) :
  (0 < n)%nat → norm_index n (Z.of_nat n - 1) = Some (n - 1)%nat.
Proof.
  intros Hn. unfold norm_index. cbv zeta.
  destruct (Z.ltb_spec (Z.of_nat n - 1) 0); [lia|].
  destruct (Z.leb_spec 0 (Z.of_nat n - 1)); [|lia].
  destruct (Z.ltb_spec (Z.of_nat n - 1) (Z.of_nat n)); [|lia].
  simpl. f_equal. lia.
Qed.

Lemma norm_index_empty (i : Z) : norm_index 0 i = None.
Proof.
  unfold norm_index. cbv zeta. change (Z.of_nat 0) with 0. rewrite Z.add_0_r.
  destruct (Z.ltb_spec i 0); simpl;
    destruct (Z.leb_spec 0 i); simpl; try done; try lia.
  destruct (Z.ltb_spec i 0); [lia | done].
Qed.

Lemma snoc_inv {A} (l : list A) : l ≠ [] → ∃ l' x, l = (l' ++ [x])%list.
Proof. destruct l as [|x l' _] using rev_ind; [done | by exists l', x]. Qed.

Lemma in_step_new : in_step new_errors.
Proof. by left. Qed.

Lemma in_step_add (msg : string) (e : Errors) : in_step e → in_step (add msg e).
Proof. done. Qed.

Lemma in_step_back_out (n : Z) (e : Errors) :
  in_step e → in_step (back_out_errors n e).
Proof. unfold back_out_errors. by destruct (0 <? n). Qed.

Lemma in_step_open (value : string) (e : Errors) :
  in_step (path_add_level value e).
Proof. right. simpl. rewrite length_app. simpl. f_equal. lia. Qed.

Lemma path_update_value_in_step (value : string) (e : Errors) :
  in_step e → path e ≠ [] →
  path_update_value value e
  = Ok (mkErrors (messages e) (<[(length (path e) - 1)%nat := value]> (path e))
          (path_level e)).
Proof.
  intros [[_ ?]|Hl] Hne; [done|].
  unfold path_update_value. rewrite Hl, norm_index_last; [done|].
  destruct (path e); [done | simpl; lia].
Qed.

Lemma path_remove_level_in_step (e : Errors) :
  in_step e → path e ≠ [] →
  path_remove_level e
  = Ok (mkErrors (messages e) (delete (length (path e) - 1)%nat (path e))
          (Some (Z.of_nat (length (path e)) - 2))).
Proof.
  intros [[_ ?]|Hl] Hne; [done|].
  unfold path_remove_level. rewrite Hl, norm_index_last.
  - do 3 f_equal. lia.
  - destruct (path e); [done | simpl; lia].
Qed.

Lemma path_remove_level_closed (e : Errors) :
  in_step e → path e = [] → ∃ x, path_remove_level e = Raise x.
Proof.
  intros [[Hl _]|Hl] Hp; unfold path_remove_level; rewrite Hl; [by eexists|].
  rewrite Hp. cbn [length]. rewrite norm_index_empty. by eexists.
Qed.

Lemma delete_last {A} (l : list A) (x : A) :
  delete (length (l ++ [x]) - 1)%nat (l ++ [x]) = l.
Proof.
  rewrite length_app. simpl.
  replace (length l + 1 - 1)%nat with (length l) by lia.
  rewrite (delete_middle l [] x). apply app_nil_r.
Qed.

Lemma run_calls_in_step (cs : list call) (e0 e : Errors) :
  in_step e0 → run_calls cs e0 = Ok e →
  in_step e ∧
  Z.of_nat (length (path e)) = Z.of_nat (length (path e0)) + opens cs - closes cs.
Proof.
  revert e0. induction cs as [|c cs IH]; intros e0 H0 Hrun; simpl in Hrun.
  - injection Hrun as <-. unfold opens, closes. simpl. split; [done | lia].
  - destruct (run_call c e0) as [e1|] eqn:Hc; [|done]. simpl in Hrun.
    assert (in_step e1 ∧
            Z.of_nat (length (path e1))
            = Z.of_nat (length (path e0)) + opens [c] - closes [c]) as [H1 Hlen].
    { destruct c; simpl in Hc; unfold opens, closes; simpl.
      - injection Hc as <-. split; [by apply in_step_add | simpl; lia].
      - injection Hc as <-. split; [by apply in_step_back_out|].
        rewrite (proj1 (back_out_errors_path _ _)). lia.
      - injection Hc as <-. split; [apply in_step_open|].
        simpl. rewrite length_app. simpl. lia.
      - destruct (decide (path e0 = [])) as [Hp|Hp].
        + exfalso. unfold path_update_value in Hc.
          destruct (path_level e0); [|done].
          by rewrite Hp, norm_index_empty in Hc.
        + rewrite path_update_value_in_step in Hc by done.
          injection Hc as <-. simpl. rewrite length_insert. split; [|lia].
          destruct H0 as [[_ ?]|Hl]; [done|]. right. simpl.
          by rewrite length_insert.
      - destruct (decide (path e0 = [])) as [Hp|Hp].
        + exfalso. destruct (path_remove_level_closed e0 H0 Hp) as [x Hx]. congruence.
        + rewrite path_remove_level_in_step in Hc by done.
          injection Hc as <-.
          destruct (snoc_inv _ Hp) as (l & x & Hl). rewrite Hl, delete_last.
          split; [right|]; cbn [path path_level]; rewrite length_app;
            cbn [length]; [f_equal|]; lia. }
    destruct (IH e1 H1 Hrun) as [He Hl]. split; [done|].
    rewrite Hl, Hlen. unfold opens, closes. simpl.
    destruct c; simpl; lia.
Qed.

(** C5: after any sequence of calls that ran without error on a fresh
    collector, [path_remove_level] raises when every opened level has
    been closed again; while a level is open it removes the marked slot
    of the path and decrements the marker. *)
Theorem path_remove_level_marker (cs : list call) (e : Errors) :
  run_calls cs new_errors = Ok e →
  (opens cs = closes cs → ∃ x, path_remove_level e = Raise x) ∧
  (closes cs < opens cs →
   ∃ (level : Z) (slot : nat),
     path_level e = Some level ∧
     norm_index (length (path e)) level = Some slot ∧
     path_remove_level e
     = Ok (mkErrors (messages e) (delete slot (path e)) (Some (level - 1)))).
Proof.
  intros Hrun.
  destruct (run_calls_in_step cs new_errors e in_step_new Hrun) as [He Hlen].
  simpl in Hlen. split; intros Hb.
  - apply path_remove_level_closed; [done|].
    destruct (path e); [done | simpl in Hlen; lia].
  - assert (path e ≠ []) as Hp by (intros Hp; rewrite Hp in Hlen; simpl in Hlen; lia).
    destruct He as [[_ ?]|Hl]; [done|].
    assert (0 < length (path e))%nat by (destruct (path e); [done | simpl; lia]).
    exists (Z.of_nat (length (path e)) - 1), (length (path e) - 1)%nat.
    split; [done|]. split; [by apply norm_index_last|].
    unfold path_remove_level. by rewrite Hl, norm_index_last.
Qed.

Lemma path_remove_level_marker_witness :
  run_calls [CallOpen "a"; CallUpdate "b"; CallClose] new_errors
  = Ok (mkErrors [] [] (Some (-1))) ∧
  ∃ x, path_remove_level (mkErrors [] [] (Some (-1))) = Raise x.
Proof.
  split; [reflexivity|].
  apply (path_remove_level_marker [CallOpen "a"; CallUpdate "b"; CallClose]);
    reflexivity.
Defined.

(** ** Induction on rules *)

Section Validator_induction.

Variable P : Validator → Prop.
Hypothesis Hscalar : ∀ v, scalar v → P v.
Hypothesis Hroot : ∀ m valid, Forall P valid → P (RootValidator m valid).
Hypothesis Hlist : ∀ m valid, Forall P valid → P (ListValidator m valid).
Hypothesis Hdict : ∀ m reject any_key required_keys key_validators valid,
  Forall P any_key →
  Forall (λ p, P (fst p) ∧ P (snd p)) key_validators →
  Forall (λ p, Forall P (snd p)) valid →
  P (DictValidator m reject any_key required_keys key_validators valid).
Hypothesis Hlazy : ∀ built v, P v → P (LazyValidator built v).

Lemma Validator_nested_ind (v : Validator) : P v.
Proof using All.
  revert v. fix IH 1. intros v.
  assert (∀ l : list Validator, Forall P l) as Hall.
  { intros l. induction l as [|x l IHl]; constructor; [apply IH | exact IHl]. }
  destruct v; try (apply Hscalar; exact I).
  - apply Hroot, Hall.
  - apply Hlist, Hall.
  - apply Hdict; [apply Hall | |].
    + induction key_validators as [|[a b] l IHl]; constructor;
        [split; apply IH | exact IHl].
    + induction valid as [|[k l] r IHr]; constructor; [apply Hall | exact IHr].
  - apply Hlazy, IH.
Qed.

End Validator_induction.

(** ** Equality of values *)

Section Data_induction.

Variable P : Data → Prop.
Hypothesis Hatom : ∀ d, atom d → P d.
Hypothesis Hlist : ∀ l, Forall P l → P (DList l).
Hypothesis Hdict : ∀ m, Forall (λ kv, P (fst kv) ∧ P (snd kv)) m → P (DDict m).

Lemma Data_nested_ind (d : Data) : P d.
Proof using All.
  revert d. fix IH 1. intros d.
  destruct d; try (apply Hatom; exact I).
  - apply Hlist. induction l as [|x l IHl]; constructor; [apply IH | exact IHl].
  - apply Hdict. induction items as [|[k v] m IHm]; constructor;
      [split; apply IH | exact IHm].
Qed.

End Data_induction.

Lemma dyadic_eqb_refl (x : Z * Z) : dyadic_eqb x x = true.
Proof. unfold dyadic_eqb. apply Z.eqb_refl. Qed.

Lemma py_eq_refl (d : Data) : py_eq d d = true.
Proof.
  induction d as [d Hd|l IH|m IH] using Data_nested_ind.
  - destruct d; try done; simpl; try apply dyadic_eqb_refl. apply String.eqb_refl.
  - simpl. induction IH as [|x l Hx _ IHl]; [done|]. by rewrite Hx, IHl.
  - simpl. rewrite Nat.eqb_refl. simpl.
    assert (∀ m0, m0 ⊆ m → Forall (λ kv, py_eq (fst kv) (fst kv) = true
                                         ∧ py_eq (snd kv) (snd kv) = true) m0 →
            (fix all (m1 : list (Data * Data)) : bool :=
               match m1 with
               | [] => true
               | (k, v) :: r =>
                   existsb (λ kv', py_eq k (fst kv') && py_eq v (snd kv')) m && all r
               end) m0 = true) as Hall.
    { intros m0 Hsub Hm0. induction Hm0 as [|[k v] r [Hk Hv] _ IHr]; [done|].
      rewrite IHr by (intros x Hx; apply Hsub; by right).
      rewrite andb_true_r. apply existsb_exists. exists (k, v). split.
      - apply list_elem_of_In, Hsub. by left.
      - simpl in *. by rewrite Hk, Hv. }
    by apply Hall.
Qed.


Lemma list_index_found (l : list Data) (x : Data) :
  x ∈ l → ∃ i, list_index x l = Some i.
Proof.
  induction 1 as [x l|x y l _ [i IH]]; simpl.
  - rewrite py_eq_refl. by exists O.
  - destruct (py_eq y x); [by exists O|]. rewrite IH. by eexists.
Qed.

(** ** Steady computations *)

Lemma extends_refl (e : Errors) : extends e e [].
Proof. unfold extends. by rewrite app_nil_r. Qed.

Lemma extends_trans (e1 e2 e3 : Errors) (a b : list string) :
  extends e1 e2 a → extends e2 e3 b → extends e1 e3 (a ++ b).
Proof.
  intros (Hm1 & Hp1 & Hk1) (Hm2 & Hp2 & Hk2). repeat split.
  - by rewrite Hm2, Hm1, app_assoc.
  - by rewrite Hp2.
  - auto.
Qed.

Lemma extends_add (msg : string) (e : Errors) :
  extends e (add msg e) [located (path e) msg].
Proof. done. Qed.

Lemma steady_ret {A} (a : A) : steady (λ e, Ok (a, e)).
Proof.
  intros e ? ? [= <- <-]. exists []. split; [apply extends_refl|].
  intros e2 _. exists e2. split; [done | apply extends_refl].
Qed.

Lemma steady_add {A} (a : A) (msg : string) : steady (λ e, Ok (a, add msg e)).
Proof.
  intros e ? ? [= <- <-]. exists [located (path e) msg]. split; [apply extends_add|].
  intros e2 Hp. exists (add msg e2). split; [done|]. rewrite <- Hp. apply extends_add.
Qed.

Lemma steady_raise {A} (x : exn) : steady (λ _ : Errors, @Raise (A * Errors) x).
Proof. by intros e ? ? ?. Qed.

Lemma steady_bind_on {A B} (Q : A → Prop) (f : Errors → Result (A * Errors))
    (k : A * Errors → Result (B * Errors)) :
  steady f → (∀ e a e', f e = Ok (a, e') → Q a) →
  (∀ a, Q a → steady (λ e, k (a, e))) → steady (λ e, f e ≫= k).
Proof.
  intros Hf HQ Hk e b e' Hrun.
  destruct (f e) as [[a e1]|] eqn:Hfe; [|done]. simpl in Hrun.
  destruct (Hf e a e1 Hfe) as (added1 & Hext1 & Hre1).
  destruct (Hk a (HQ _ _ _ Hfe) e1 b e' Hrun) as (added2 & Hext2 & Hre2).
  exists (added1 ++ added2). split; [by eapply extends_trans|].
  intros e2 Hp.
  destruct (Hre1 e2 Hp) as (e21 & Hf2 & Hext21).
  destruct (Hre2 e21) as (e22 & Hk2 & Hext22).
  { destruct Hext21 as (_ & -> & _), Hext1 as (_ & -> & _). done. }
  exists e22. split; [by rewrite Hf2 | by eapply extends_trans].
Qed.

Lemma steady_bind {A B} (f : Errors → Result (A * Errors))
    (k : A * Errors → Result (B * Errors)) :
  steady f → (∀ a, steady (λ e, k (a, e))) → steady (λ e, f e ≫= k).
Proof. intros Hf Hk. apply (steady_bind_on (λ _, True)); auto. Qed.

Ltac steady_cases :=
  repeat first
    [ apply steady_ret | apply steady_add | apply steady_raise
    | progress cbn [mbind Result_bind]
    | case_match ].

Section Validation.

Context (env : Env).

Lemma steady_scalar (v : Validator) (d : Data) :
  scalar v → steady (validate env v d).
Proof.
  destruct v; intros Hs; try done; simpl;
    unfold ChoiceValidator_validate, EqualsValidator_validate,
      NumberValidator_validate, IntegerValidator_validate,
      DecimalValidator_validate, BooleanValidator_validate,
      TextValidator_validate, RegexpValidator_validate,
      RegexpMatchValidator_validate, FileValidator_validate,
      PathValidator_validate, UrlValidator_validate, QualityValidator_validate,
      QualityRequirementsValidator_validate, check_type;
    steady_cases.
Qed.

Lemma steady_try_rules (item : Data) (rules : list Rule) :
  Forall steady_rule rules → steady (try_rules item rules).
Proof.
  induction 1 as [|r rules Hr _ IH]; simpl; [apply steady_ret|].
  destruct (validateable (node r) item); [|exact IH].
  apply (steady_bind (method r item)); [apply Hr|].
  intros [|]; [apply steady_ret | exact IH].
Qed.

Lemma steady_match_key (key : Data) (kvs : list (Rule * Rule)) :
  Forall (λ p, steady_rule (fst p)) kvs → steady (match_key key kvs).
Proof.
  induction 1 as [|[kv vv] kvs Hr _ IH]; simpl; [apply steady_ret|].
  destruct (validateable (node kv) key); [|exact IH].
  apply (steady_bind (method kv key)); [apply Hr|].
  intros [|]; [apply steady_ret | exact IH].
Qed.

Lemma add_custom_messages_extends (rules : list Rule) (e : Errors) :
  extends e (add_custom_messages rules e)
    (map (located (path e)) (custom_messages rules)).
Proof.
  unfold add_custom_messages, custom_messages. revert e.
  induction rules as [|r rules IH]; intros e; simpl; [apply extends_refl|].
  destruct (truthy (message (node r))) as [m|]; simpl; [|apply IH].
  change (located (path e) m :: ?l) with ([located (path e) m] ++ l).
  eapply extends_trans; [apply extends_add | exact (IH (add m e))].
Qed.

Lemma count_extends (e e' : Errors) (added : list string) :
  extends e e' added → (count e =? count e') = is_empty added.
Proof.
  intros (Hm & _). unfold count. rewrite Hm, length_app.
  destruct added; simpl.
  - apply Z.eqb_eq. lia.
  - apply Z.eqb_neq. lia.
Qed.

Lemma back_out_extends (e e' : Errors) (added : list string) :
  extends e e' added →
  extends e (back_out_errors (count e' - count e) e') [].
Proof.
  intros (Hm & Hp & Hk). unfold count at 2.
  rewrite (back_out_errors_appended e' (messages e) added Hm).
  unfold extends, marked in *. simpl. rewrite app_nil_r.
  rewrite Hp in *. auto.
Qed.

(** [validate_item] in terms of its first loop. *)
Lemma validate_item_try (item : Data) (rules : list Rule) (e e1 : Errors)
    (ok : bool) (tried : list string) :
  try_rules item rules e = Ok (ok, e1) → extends e e1 tried →
  ∃ e', validate_item env item rules e = Ok (ok, e') ∧
        extends e e' (item_added env item rules (path e) ok tried).
Proof.
  intros Htry Hext. unfold validate_item. rewrite Htry. cbn [mbind Result_bind].
  destruct ok; simpl.
  { eexists. split; [done|]. by eapply back_out_extends. }
  rewrite (count_extends _ _ _ Hext).
  destruct tried as [|t tried]; simpl; [|by eexists].
  pose proof (add_custom_messages_extends rules e1) as Hc.
  destruct Hext as (Hm & Hp & Hk). rewrite app_nil_r in Hm.
  assert (extends e (add_custom_messages rules e1)
            (map (located (path e)) (custom_messages rules))) as Hc'.
  { rewrite <- Hp. destruct Hc as (Hcm & Hcp & Hck).
    repeat split; [by rewrite Hcm, Hm | by rewrite Hcp | auto]. }
  rewrite (count_extends _ _ _ Hc'). unfold item_failure.
  destruct (custom_messages rules) as [|c cs] eqn:Hcs; simpl; [|by eexists].
  eexists. split; [done|].
  destruct Hc' as (Hcm & Hcp & Hck). simpl in Hcm. rewrite app_nil_r in Hcm.
  repeat split.
  - repeat case_match; simpl; rewrite Hcm; unfold located; rewrite Hcp;
      rewrite <- app_assoc; done.
  - by repeat case_match.
  - intros Hmk. specialize (Hck Hmk). by repeat case_match.
Qed.

Lemma steady_validate_item (item : Data) (rules : list Rule) :
  Forall steady_rule rules → steady (validate_item env item rules).
Proof.
  intros Hall e ok e' Hrun.
  assert (∃ e1, try_rules item rules e = Ok (ok, e1)) as [e1 Htry].
  { unfold validate_item in Hrun.
    destruct (try_rules item rules e) as [[ok1 e1]|]; [|done].
    cbn [mbind Result_bind] in Hrun. exists e1.
    destruct ok1; [by injection Hrun as <- _|].
    repeat case_match; by injection Hrun as <- _. }
  destruct (steady_try_rules item rules Hall e ok e1 Htry) as (tried & Hext & Hre).
  destruct (validate_item_try item rules e e1 ok tried Htry Hext) as (e'' & Hv & Hext').
  rewrite Hv in Hrun. injection Hrun as <-.
  eexists. split; [exact Hext'|].
  intros e2 Hp. destruct (Hre e2 Hp) as (e21 & Htry2 & Hext2).
  destruct (validate_item_try item rules e2 e21 ok tried Htry2 Hext2) as (? & ? & ?).
  rewrite Hp in *. eauto.
Qed.

Lemma steadyE_ok : steadyE (λ e, Ok e).
Proof. apply (steady_ret tt). Qed.

Lemma steadyE_add (msg : string) : steadyE (λ e, Ok (add msg e)).
Proof. apply (steady_add tt). Qed.

Lemma steady_ext {A} (f g : Errors → Result (A * Errors)) :
  (∀ e, f e = g e) → steady f → steady g.
Proof.
  intros Heq Hf e a e' Hrun. rewrite <- Heq in Hrun.
  destruct (Hf e a e' Hrun) as (added & Hext & Hre).
  exists added. split; [done|]. intros e2 Hp. rewrite <- Heq. auto.
Qed.

Lemma steadyE_bind_on {A} (Q : A → Prop) (f : Errors → Result (A * Errors))
    (k : A * Errors → Result Errors) :
  steady f → (∀ e a e', f e = Ok (a, e') → Q a) →
  (∀ a, Q a → steadyE (λ e, k (a, e))) → steadyE (λ e, f e ≫= k).
Proof.
  intros Hf HQ Hk. unfold steadyE.
  apply (steady_ext (λ e, f e ≫= (λ x, e' ← k x; Ok (tt, e')))).
  - intros e. by destruct (f e).
  - apply (steady_bind_on Q f); [done | done |]. intros a Ha. by apply Hk.
Qed.

Lemma steadyE_bind {A} (f : Errors → Result (A * Errors))
    (k : A * Errors → Result Errors) :
  steady f → (∀ a, steadyE (λ e, k (a, e))) → steadyE (λ e, f e ≫= k).
Proof. intros Hf Hk. apply (steadyE_bind_on (λ _, True)); auto. Qed.

Lemma steadyE_run (g : Errors → Result Errors) (e e' : Errors) :
  steadyE g → g e = Ok e' →
  ∃ added, extends e e' added ∧
    ∀ e2, path e2 = path e → ∃ e2', g e2 = Ok e2' ∧ extends e2 e2' added.
Proof.
  intros Hg Hrun. destruct (Hg e tt e') as (added & Hext & Hre).
  { by rewrite Hrun. }
  exists added. split; [done|]. intros e2 Hp.
  destruct (Hre e2 Hp) as (e2' & Hrun2 & Hext2). exists e2'. split; [|done].
  destruct (g e2); [by injection Hrun2 as -> | done].
Qed.

(** A computation followed by a step that only appends messages that
    depend on the path. *)
Lemma steadyE_then (g : Errors → Result Errors) (h : Errors → Errors)
    (logged : list string → list string) :
  steadyE g → (∀ e, extends e (h e) (logged (path e))) →
  steadyE (λ e, e' ← g e; Ok (h e')).
Proof.
  intros Hg Hh e [] e' Hrun.
  destruct (g e) as [e1|] eqn:Hge; [|done]. injection Hrun as <-.
  destruct (steadyE_run g e e1 Hg Hge) as (added & Hext & Hre).
  exists (added ++ logged (path e1)). split; [eapply extends_trans; eauto|].
  intros e2 Hp. destruct (Hre e2 Hp) as (e21 & Hg2 & Hext2).
  exists (h e21). rewrite Hg2. split; [done|].
  eapply extends_trans; [done|].
  replace (path e1) with (path e21); [done|].
  destruct Hext as (_ & -> & _), Hext2 as (_ & -> & _). done.
Qed.

(** Comparing the count of before with the count of after. *)
Lemma steady_counted (g : Errors → Result Errors) :
  steadyE g → steady (λ e, e' ← g e; Ok (count e =? count e', e')).
Proof.
  intros Hg e b e' Hrun.
  destruct (g e) as [e1|] eqn:Hge; [|done]. injection Hrun as <- <-.
  destruct (steadyE_run g e e1 Hg Hge) as (added & Hext & Hre).
  exists added. split; [done|]. intros e2 Hp.
  destruct (Hre e2 Hp) as (e21 & Hg2 & Hext2). exists e21. rewrite Hg2.
  split; [|done]. simpl.
  by rewrite (count_extends _ _ _ Hext), (count_extends _ _ _ Hext2).
Qed.

(** *** Inside an opened path segment *)

Lemma parent_path_snoc (p : list string) (x : string) :
  parent_path (p ++ [x]) = p.
Proof.
  unfold parent_path. rewrite length_app. simpl.
  replace (length p + 1 - 1)%nat with (length p) by lia.
  apply take_app_length.
Qed.

Lemma marked_in_step (e : Errors) : marked e → in_step e.
Proof. by right. Qed.

Lemma path_update_value_marked (value : string) (e : Errors) :
  marked e → path e ≠ [] →
  path_update_value value e
  = Ok (mkErrors (messages e) (parent_path (path e) ++ [value]) (path_level e)).
Proof.
  intros Hm Hne. rewrite path_update_value_in_step by auto using marked_in_step.
  do 2 f_equal. destruct (snoc_inv _ Hne) as (l & x & ->).
  rewrite parent_path_snoc, length_app. simpl.
  replace (length l + 1 - 1)%nat with (length l + 0)%nat by lia.
  by rewrite insert_app_r.
Qed.

Lemma path_remove_level_marked (e : Errors) :
  marked e → path e ≠ [] →
  path_remove_level e
  = Ok (mkErrors (messages e) (parent_path (path e))
          (Some (Z.of_nat (length (parent_path (path e))) - 1))).
Proof.
  intros Hm Hne. rewrite path_remove_level_in_step by auto using marked_in_step.
  destruct (snoc_inv _ Hne) as (l & x & ->).
  rewrite parent_path_snoc, delete_last, length_app. simpl.
  do 3 f_equal. lia.
Qed.

Lemma scoped_update_then (label : string) (g : Errors → Result Errors) :
  steadyE g → scoped (λ e, e1 ← path_update_value label e; g e1).
Proof.
  intros Hg e e' Hm Hne Hrun.
  rewrite path_update_value_marked in Hrun by done. cbn [mbind Result_bind] in Hrun.
  destruct (steadyE_run g _ e' Hg Hrun) as (added & (Hmsg & Hp & Hk) & Hre).
  simpl in Hmsg, Hp.
  assert (length (parent_path (path e) ++ [label]) = length (path e)) as Hlen.
  { destruct (snoc_inv _ Hne) as (l & x & ->).
    by rewrite parent_path_snoc, !length_app. }
  split; [|split; [|split]].
  - apply Hk. unfold marked in *. simpl. by rewrite Hlen.
  - rewrite Hp. by destruct (parent_path (path e)).
  - by rewrite Hp, parent_path_snoc.
  - exists added. split; [done|]. intros e2 Hm2 Hne2 Hpar.
    rewrite path_update_value_marked by done. cbn [mbind Result_bind].
    destruct (Hre (mkErrors (messages e2) (parent_path (path e2) ++ [label])
                     (path_level e2))) as (e2' & Hg2 & (Hmsg2 & _)).
    { simpl. by rewrite Hpar. }
    by exists e2'.
Qed.

Lemma scoped_for_each {A} (body : A → Errors → Result Errors) (xs : list A) :
  (∀ x, x ∈ xs → scoped (body x)) → scoped (for_each body xs).
Proof.
  induction xs as [|x xs IH]; intros Hbody e e' Hm Hne Hrun; simpl in Hrun.
  - injection Hrun as <-. repeat split; [done..|].
    exists []. split; [by rewrite app_nil_r|].
    intros e2 _ _ _. exists e2. by rewrite app_nil_r.
  - destruct (body x e) as [e1|] eqn:Hx; [|done]. cbn [mbind Result_bind] in Hrun.
    destruct (Hbody x (list_elem_of_here _ _) e e1 Hm Hne Hx)
      as (Hm1 & Hne1 & Hpar1 & added1 & Hmsg1 & Hre1).
    destruct (IH (λ y Hy, Hbody y (list_elem_of_further _ _ _ Hy)) e1 e' Hm1 Hne1 Hrun)
      as (Hm' & Hne' & Hpar' & added2 & Hmsg2 & Hre2).
    split; [done|]. split; [done|]. split; [by rewrite Hpar'|].
    exists (added1 ++ added2). split; [by rewrite Hmsg2, Hmsg1, app_assoc|].
    intros e2 Hm2 Hne2 Hpar2.
    destruct (Hre1 e2 Hm2 Hne2 Hpar2) as (e21 & Hx2 & Hmsg21).
    destruct (Hbody x (list_elem_of_here _ _) e2 e21 Hm2 Hne2 Hx2)
      as (Hm21 & Hne21 & Hpar21 & _).
    destruct (Hre2 e21 Hm21 Hne21) as (e22 & Hrest & Hmsg22).
    { by rewrite Hpar21, Hpar2. }
    exists e22. simpl. rewrite Hx2. cbn [mbind Result_bind].
    split; [done|]. by rewrite Hmsg22, Hmsg21, app_assoc.
Qed.

(** Open a segment, run a scoped body, close the segment. *)
Lemma steadyE_scope (body : Errors → Result Errors) :
  scoped body →
  steadyE (λ e, e2 ← body (path_add_level "?" e); path_remove_level e2).
Proof.
  intros Hbody e [] e' Hrun.
  destruct (body (path_add_level "?" e)) as [e2|] eqn:Hb; [|done].
  cbn [mbind Result_bind] in Hrun.
  assert (∀ e0, marked (path_add_level "?" e0) ∧ path (path_add_level "?" e0) ≠ []
                ∧ parent_path (path (path_add_level "?" e0)) = path e0) as Hopen.
  { intros e0. simpl. rewrite parent_path_snoc. split; [|split; [|done]].
    - unfold marked. simpl. rewrite length_app. simpl. f_equal. lia.
    - by destruct (path e0). }
  destruct (Hopen e) as (Hm1 & Hne1 & Hpar1).
  destruct (Hbody _ e2 Hm1 Hne1 Hb) as (Hm2 & Hne2 & Hpar2 & added & Hmsg & Hre).
  rewrite path_remove_level_marked in Hrun by done.
  cbn [mbind Result_bind] in Hrun. injection Hrun as <-.
  rewrite Hpar2, Hpar1 in *.
  exists added. split; [by repeat split|].
  intros e0 Hp. destruct (Hopen e0) as (Hm0 & Hne0 & Hpar0).
  destruct (Hre _ Hm0 Hne0) as (e02 & Hb0 & Hmsg0); [by rewrite Hpar0, Hp|].
  destruct (Hbody _ e02 Hm0 Hne0 Hb0) as (Hm02 & Hne02 & Hpar02 & _).
  rewrite Hb0. cbn [mbind Result_bind].
  rewrite path_remove_level_marked by done. eexists. split; [done|].
  rewrite Hpar02, Hpar0. by repeat split.
Qed.

(** *** The composite rules are steady *)

Lemma scoped_list_item (valid : list Rule) (l : list Data) (item : Data) :
  Forall steady_rule valid → scoped (list_item env valid l item).
Proof.
  intros Hv. unfold list_item.
  destruct (list_index item l); cbn [mbind Result_bind];
    [|by intros ? ? ? ? ?].
  apply scoped_update_then, steadyE_bind; [by apply steady_validate_item|].
  intros []; apply steadyE_ok.
Qed.

Lemma steady_ListValidator_validate (valid : list Rule) (d : Data) :
  Forall steady_rule valid → steady (ListValidator_validate env valid d).
Proof.
  intros Hv. destruct d; try apply steady_add. unfold ListValidator_validate.
  apply (steady_ext
           (λ e, e' ← (e2 ← for_each (list_item env valid l) l (path_add_level "?" e);
                       path_remove_level e2);
                 Ok (count e =? count e', e'))).
  { intros e. by destruct (for_each _ l _). }
  apply steady_counted, steadyE_scope, scoped_for_each.
  intros item _. by apply scoped_list_item.
Qed.

Lemma dict_get_Forall {V} (P : V → Prop) (key : string) (m : list (string * V)) (v : V) :
  Forall (λ p, P (snd p)) m → dict_get key m = Some v → P v.
Proof.
  induction 1 as [|[k w] m Hw _ IH]; simpl; [done|].
  destruct (String.eqb k key); [by intros [= <-] | exact IH].
Qed.

Lemma match_key_found (key : Data) (kvs : list (Rule * Rule)) (e e' : Errors)
    (vv : Rule) :
  match_key key kvs e = Ok (Some vv, e') → ∃ kv, (kv, vv) ∈ kvs.
Proof.
  revert e. induction kvs as [|[kv0 vv0] kvs IH]; intros e; simpl; [done|].
  assert (∀ e0, match_key key kvs e0 = Ok (Some vv, e') → ∃ kv, (kv, vv) ∈ (kv0, vv0) :: kvs)
    as Hrest.
  { intros e0 H0. destruct (IH e0 H0) as [kv Hin]. exists kv. by right. }
  destruct (validateable (node kv0) key); [|apply Hrest].
  destruct (method kv0 key e) as [[[|] e1]|]; cbn [mbind Result_bind]; [| |done].
  - intros [= <- _]. exists kv0. by left.
  - apply Hrest.
Qed.

(** The rules [key_rules] returns are rules of the dictionary rule. *)
Lemma key_rules_Forall (Q : Rule → Prop) (any_key : list Rule)
    (kvs : list (Rule * Rule)) (valid : list (string * list Rule)) (key : Data)
    (e e' : Errors) (rules : list Rule) :
  Forall Q any_key → Forall (λ p, Q (snd p)) kvs →
  Forall (λ p, Forall Q (snd p)) valid →
  key_rules any_key kvs valid key e = Ok (rules, e') → Forall Q rules.
Proof.
  intros Hany Hkv Hvalid. unfold key_rules.
  destruct (get_key key valid) as [rs|] eqn:Hget.
  { intros [= <- _]. destruct key; try done.
    by apply (dict_get_Forall (Forall Q) _ _ _ Hvalid Hget). }
  destruct (match_key key kvs e) as [[found e1]|] eqn:Hmk; [|done].
  cbn [mbind Result_bind].
  assert (Forall Q match found with Some vv => [vv] | None => any_key end) as Hrules.
  { destruct found as [vv|]; [|done].
    destruct (match_key_found _ _ _ _ _ Hmk) as [kv Hin].
    rewrite Forall_forall in Hkv. apply Hkv in Hin.
    constructor; [apply Hin | constructor]. }
  by destruct (is_empty _); intros [= <- _].
Qed.

Lemma key_rules_steady_rules (any_key : list Rule) (kvs : list (Rule * Rule))
    (valid : list (string * list Rule)) (key : Data) (e e' : Errors)
    (rules : list Rule) :
  steady_dict any_key kvs valid →
  key_rules any_key kvs valid key e = Ok (rules, e') → Forall steady_rule rules.
Proof.
  intros (Hany & Hkv & Hvalid). apply key_rules_Forall; [done | | done].
  eapply Forall_impl; [exact Hkv | by intros ? []].
Qed.

Lemma steady_key_rules (any_key : list Rule) (kvs : list (Rule * Rule))
    (valid : list (string * list Rule)) (key : Data) :
  steady_dict any_key kvs valid → steady (key_rules any_key kvs valid key).
Proof.
  intros (Hany & Hkv & Hvalid). unfold key_rules.
  destruct (get_key key valid) as [rs|]; [apply steady_ret|].
  assert (steady (match_key key kvs)) as Hmk.
  { apply steady_match_key. eapply Forall_impl; [exact Hkv | by intros ? []]. }
  intros e rules e' Hrun.
  destruct (match_key key kvs e) as [[found e1]|] eqn:Hfound; [|done].
  cbn [mbind Result_bind] in Hrun.
  destruct (Hmk e found e1 Hfound) as (added & Hext & Hre).
  destruct (is_empty _) eqn:Hempty; injection Hrun as <- <-.
  - exists added. split; [done|]. intros e2 Hp.
    destruct (Hre e2 Hp) as (e21 & -> & Hext2). cbn [mbind Result_bind].
    rewrite Hempty. eauto.
  - exists []. split; [by eapply back_out_extends|]. intros e2 Hp.
    destruct (Hre e2 Hp) as (e21 & -> & Hext2). cbn [mbind Result_bind].
    rewrite Hempty. eexists. split; [done|]. by eapply back_out_extends.
Qed.

Lemma scoped_dict_item (reject : list (string * option string))
    (any_key : list Rule) (kvs : list (Rule * Rule))
    (valid : list (string * list Rule)) (kv : Data * Data) :
  steady_dict any_key kvs valid →
  scoped (dict_item env reject any_key kvs valid kv).
Proof.
  intros Hd. destruct kv as [key value]. unfold dict_item.
  apply scoped_update_then.
  destruct (get_key key reject); [apply steadyE_add|].
  apply (steadyE_bind_on (Forall steady_rule)).
  - by apply steady_key_rules.
  - intros e rules e'. by apply key_rules_steady_rules.
  - intros rules Hr. destruct (is_empty rules); [apply steadyE_add|].
    apply steadyE_bind; [by apply steady_validate_item|].
    intros []; apply steadyE_ok.
Qed.

Lemma add_required_extends (required_keys : list string)
    (items : list (Data * Data)) (e : Errors) :
  extends e (add_required required_keys items e)
    (missing_required required_keys items (path e)).
Proof.
  unfold add_required, missing_required. revert e.
  induction required_keys as [|k ks IH]; intros e; simpl; [apply extends_refl|].
  destruct (has_key k items); simpl; [apply IH|].
  change (?x :: ?l) with ([x] ++ l).
  eapply extends_trans; [apply extends_add | exact (IH (add _ e))].
Qed.

Lemma steady_DictValidator_validate (reject : list (string * option string))
    (any_key : list Rule) (required_keys : list string)
    (kvs : list (Rule * Rule)) (valid : list (string * list Rule)) (d : Data) :
  steady_dict any_key kvs valid →
  steady (DictValidator_validate env reject any_key required_keys kvs valid d).
Proof.
  intros Hd. destruct d; try apply steady_add. unfold DictValidator_validate.
  apply (steady_ext
           (λ e, e' ← (e3 ← (e2 ← for_each (dict_item env reject any_key kvs valid)
                                     items (path_add_level "?" e);
                             path_remove_level e2);
                       Ok (add_required required_keys items e3));
                 Ok (count e =? count e', e'))).
  { intros e. destruct (for_each _ items _) as [e2|]; [|done].
    cbn [mbind Result_bind]. by destruct (path_remove_level e2). }
  apply steady_counted.
  apply (steadyE_then _ _ (missing_required required_keys items));
    [|apply add_required_extends].
  apply steadyE_scope, scoped_for_each. intros kv _. by apply scoped_dict_item.
Qed.

(** Every rule is steady: [validate] only appends to the messages, leaves
    the path as it found it, and what it returns and appends depends on
    the collector through the path alone. *)
Lemma steady_validate (v : Validator) (d : Data) : steady (validate env v d).
Proof.
  revert d. induction v as [v Hs|m valid IH|m valid IH|
    m reject any_key required_keys kvs valid IHa IHk IHv|built v IH]
    using Validator_nested_ind; intros d.
  - by apply steady_scalar.
  - simpl. apply steady_validate_item, Forall_map.
    eapply Forall_impl; [exact IH|]. intros r Hr; exact Hr.
  - simpl. apply steady_ListValidator_validate, Forall_map.
    eapply Forall_impl; [exact IH|]. intros r Hr; exact Hr.
  - simpl. apply steady_DictValidator_validate. split; [|split].
    + apply Forall_map. eapply Forall_impl; [exact IHa|]. intros r Hr; exact Hr.
    + apply Forall_map. eapply Forall_impl; [exact IHk|].
      intros [a b] [Ha Hb]. split; [exact Ha | exact Hb].
    + apply Forall_map. eapply Forall_impl; [exact IHv|].
      intros [k rs] Hrs. simpl in *. apply Forall_map.
      eapply Forall_impl; [exact Hrs|]. intros r Hr; exact Hr.
  - simpl. apply IH.
Qed.

Lemma steady_rules (vs : list Validator) : Forall steady_rule (map (rule env) vs).
Proof.
  apply Forall_map, Forall_forall. intros v _ d. apply steady_validate.
Qed.

(** ** Rules that return *)

Lemma sound_scalar (v : Validator) :
  scalar v → well_built env v = true → sound_rule (rule env v).
Proof.
  intros Hs Hw d Hable e.
  destruct v; try done; destruct d; try done; simpl in *;
    unfold ChoiceValidator_validate, EqualsValidator_validate,
      NumberValidator_validate, IntegerValidator_validate,
      DecimalValidator_validate, BooleanValidator_validate,
      TextValidator_validate, RegexpValidator_validate,
      RegexpMatchValidator_validate, FileValidator_validate,
      PathValidator_validate, UrlValidator_validate, QualityValidator_validate,
      QualityRequirementsValidator_validate, check_type;
    rewrite ?Hw;
    repeat (first [case_match | progress cbn [mbind Result_bind]]); eauto.
Qed.

Lemma try_rules_returns (item : Data) (rules : list Rule) (e : Errors) :
  Forall sound_rule rules → ∃ b e', try_rules item rules e = Ok (b, e').
Proof.
  intros Hall. revert e. induction Hall as [|r rules Hr _ IH]; intros e; simpl;
    [by eauto|].
  destruct (validateable (node r) item) eqn:Hable; [|apply IH].
  destruct (Hr item Hable e) as ([|] & e1 & ->); cbn [mbind Result_bind];
    [by eauto | apply IH].
Qed.

Lemma validate_item_returns (item : Data) (rules : list Rule) (e : Errors) :
  Forall sound_rule rules → ∃ b e', validate_item env item rules e = Ok (b, e').
Proof.
  intros Hall. unfold validate_item.
  destruct (try_rules_returns item rules e Hall) as (b & e1 & ->).
  cbn [mbind Result_bind]. repeat case_match; eauto.
Qed.

Lemma match_key_returns (key : Data) (kvs : list (Rule * Rule)) (e : Errors) :
  Forall (λ p, sound_rule (fst p)) kvs →
  ∃ found e', match_key key kvs e = Ok (found, e').
Proof.
  intros Hall. revert e. induction Hall as [|[kv vv] kvs Hr _ IH]; intros e; simpl;
    [by eauto|].
  simpl in Hr.
  destruct (validateable (node kv) key) eqn:Hable; [|apply IH].
  destruct (Hr key Hable e) as ([|] & e1 & ->); cbn [mbind Result_bind];
    [by eauto | apply IH].
Qed.

Lemma key_rules_returns (any_key : list Rule) (kvs : list (Rule * Rule))
    (valid : list (string * list Rule)) (key : Data) (e : Errors) :
  sound_dict any_key kvs valid →
  ∃ rules e', key_rules any_key kvs valid key e = Ok (rules, e') ∧
              Forall sound_rule rules.
Proof.
  intros (Hany & Hkv & Hvalid).
  assert (∃ rules e', key_rules any_key kvs valid key e = Ok (rules, e'))
    as (rules & e' & Hrun).
  { unfold key_rules. destruct (get_key key valid); [by eauto|].
    destruct (match_key_returns key kvs e) as (found & e1 & ->).
    - eapply Forall_impl; [exact Hkv | by intros ? []].
    - cbn [mbind Result_bind]. destruct (is_empty _); eauto. }
  exists rules, e'. split; [done|].
  eapply key_rules_Forall; [exact Hany | | exact Hvalid | exact Hrun].
  eapply Forall_impl; [exact Hkv | by intros ? []].
Qed.

Lemma for_each_returns {A} (body : A → Errors → Result Errors) (xs : list A)
    (e : Errors) :
  (∀ x, x ∈ xs → scoped (body x)) →
  (∀ x e, x ∈ xs → marked e → path e ≠ [] → ∃ e', body x e = Ok e') →
  marked e → path e ≠ [] →
  ∃ e', for_each body xs e = Ok e' ∧ marked e' ∧ path e' ≠ [].
Proof.
  revert e. induction xs as [|x xs IH]; intros e Hsc Hret Hm Hne; simpl;
    [by eauto|].
  destruct (Hret x e (list_elem_of_here _ _) Hm Hne) as [e1 Hx]. rewrite Hx.
  cbn [mbind Result_bind].
  destruct (Hsc x (list_elem_of_here _ _) e e1 Hm Hne Hx) as (Hm1 & Hne1 & _).
  apply IH; [| |done|done].
  - intros y Hy. apply Hsc. by right.
  - intros y e0 Hy. apply Hret. by right.
Qed.

Lemma list_item_returns (valid : list Rule) (l : list Data) (item : Data)
    (e : Errors) :
  Forall sound_rule valid → item ∈ l → marked e → path e ≠ [] →
  ∃ e', list_item env valid l item e = Ok e'.
Proof.
  intros Hv Hin Hm Hne. unfold list_item.
  destruct (list_index_found l item Hin) as [i ->]. cbn [mbind Result_bind].
  rewrite path_update_value_marked by done. cbn [mbind Result_bind].
  destruct (validate_item_returns item valid
              (mkErrors (messages e)
                 (parent_path (path e) ++ [("list:" ++ pretty (Z.of_nat i))%string])
                 (path_level e)) Hv) as (b & e' & ->).
  by eauto.
Qed.

Lemma dict_item_returns (reject : list (string * option string))
    (any_key : list Rule) (kvs : list (Rule * Rule))
    (valid : list (string * list Rule)) (kv : Data * Data) (e : Errors) :
  sound_dict any_key kvs valid → marked e → path e ≠ [] →
  ∃ e', dict_item env reject any_key kvs valid kv e = Ok e'.
Proof.
  intros Hd Hm Hne. destruct kv as [key value]. unfold dict_item.
  rewrite path_update_value_marked by done. cbn [mbind Result_bind].
  destruct (get_key key reject); [by eauto|].
  destruct (key_rules_returns any_key kvs valid key
              (mkErrors (messages e)
                 (parent_path (path e) ++ [("dict:" ++ py_str env key)%string])
                 (path_level e)) Hd) as (rules & e2 & -> & Hr).
  cbn [mbind Result_bind]. destruct (is_empty rules); [by eauto|].
  destruct (validate_item_returns value rules e2 Hr) as (b & e3 & ->). by eauto.
Qed.

Lemma marked_open (e : Errors) :
  marked (path_add_level "?" e) ∧ path (path_add_level "?" e) ≠ [].
Proof.
  split.
  - unfold marked. simpl. rewrite length_app. simpl. f_equal. lia.
  - simpl. by destruct (path e).
Qed.

Lemma ListValidator_validate_returns (valid : list Rule) (l : list Data)
    (e : Errors) :
  Forall steady_rule valid → Forall sound_rule valid →
  ∃ b e', ListValidator_validate env valid (DList l) e = Ok (b, e').
Proof.
  intros Hst Hso. unfold ListValidator_validate.
  destruct (marked_open e) as [Hm Hne].
  destruct (for_each_returns (list_item env valid l) l _
              (λ x _, scoped_list_item valid l x Hst)
              (λ x e0 Hx, list_item_returns valid l x e0 Hso Hx) Hm Hne)
    as (e2 & -> & Hm2 & Hne2).
  cbn [mbind Result_bind]. rewrite path_remove_level_marked by done.
  by eauto.
Qed.

Lemma DictValidator_validate_returns (reject : list (string * option string))
    (any_key : list Rule) (required_keys : list string)
    (kvs : list (Rule * Rule)) (valid : list (string * list Rule))
    (items : list (Data * Data)) (e : Errors) :
  steady_dict any_key kvs valid → sound_dict any_key kvs valid →
  ∃ b e', DictValidator_validate env reject any_key required_keys kvs valid
            (DDict items) e = Ok (b, e').
Proof.
  intros Hst Hso. unfold DictValidator_validate.
  destruct (marked_open e) as [Hm Hne].
  destruct (for_each_returns (dict_item env reject any_key kvs valid) items _
              (λ x _, scoped_dict_item reject any_key kvs valid x Hst)
              (λ x e0 _, dict_item_returns reject any_key kvs valid x e0 Hso) Hm Hne)
    as (e2 & -> & Hm2 & Hne2).
  cbn [mbind Result_bind]. rewrite path_remove_level_marked by done.
  by eauto.
Qed.

Lemma forallb_Forall_impl {A} (f : A → bool) (P : A → Prop) (l : list A) :
  Forall (λ x, f x = true → P x) l → forallb f l = true → Forall P l.
Proof.
  induction 1 as [|x l Hx _ IH]; simpl; [done|].
  intros [Hf Hl]%andb_true_iff. constructor; auto.
Qed.

(** Every rule of a well built tree returns on the values it applies
    to. *)
Lemma validate_returns (v : Validator) :
  well_built env v = true → sound_rule (rule env v).
Proof.
  induction v as [v Hs|m valid IH|m valid IH|
    m reject any_key required_keys kvs valid IHa IHk IHv|built v IH]
    using Validator_nested_ind; intros Hw.
  - by apply sound_scalar.
  - intros d _ e. simpl in *. apply validate_item_returns, Forall_map.
    by apply (forallb_Forall_impl (well_built env)).
  - intros d Hable e. destruct d; try done. simpl in *.
    apply ListValidator_validate_returns; [apply steady_rules|].
    apply Forall_map. by apply (forallb_Forall_impl (well_built env)).
  - intros d Hable e. destruct d; try done. simpl in Hw.
    apply andb_true_iff in Hw as [[Ha Hk]%andb_true_iff Hv].
    simpl. apply DictValidator_validate_returns.
    + split; [apply steady_rules | split]; apply Forall_map, Forall_forall.
      * intros [a b] _. split; intros d; apply steady_validate.
      * intros [k rs] _. apply steady_rules.
    + split; [|split]; apply Forall_map.
      * by apply (forallb_Forall_impl (well_built env)).
      * eapply (forallb_Forall_impl (λ p, well_built env (fst p) && well_built env (snd p)));
          [|exact Hk].
        eapply Forall_impl; [exact IHk|].
        intros [a b] [Ha' Hb'] [? ?]%andb_true_iff. split; [by apply Ha' | by apply Hb'].
      * eapply (forallb_Forall_impl (λ p, forallb (well_built env) (snd p)));
          [|exact Hv].
        eapply Forall_impl; [exact IHv|].
        intros [k rs] Hrs Hwrs. simpl in *. apply Forall_map.
        by apply (forallb_Forall_impl (well_built env)).
  - intros d Hable e. simpl in *. by apply IH.
Qed.

(** ** Selecting among alternatives *)

Lemma returns_at_run (p : list string) (v : Validator) (item : Data) (b : bool)
    (e : Errors) :
  returns_at env p v item b → path e = p →
  ∃ e' added, validate env v item e = Ok (b, e') ∧ extends e e' added.
Proof.
  intros (e0 & e0' & Hp0 & Hrun) Hp.
  destruct (steady_validate v item e0 b e0' Hrun) as (added & _ & Hre).
  destruct (Hre e) as (e' & ? & ?); [congruence|]. eauto.
Qed.

(** The first loop of [validate_item] stops at the first rule that
    takes the item. *)
Lemma try_rules_first (item : Data) (before : list Validator)
    (r : Validator) (e : Errors) :
  Forall (λ r', refuses env (path e) r' item) before →
  takes env (path e) r item →
  ∃ e1 tried, extends e e1 tried ∧
    ∀ after, try_rules item (map (rule env) (before ++ r :: after)) e = Ok (true, e1).
Proof.
  intros Hbefore [Hable Htrue]. revert e Hbefore Htrue.
  induction before as [|r' before IH]; intros e Hbefore Htrue.
  - destruct (returns_at_run _ _ _ _ e Htrue eq_refl) as (e1 & tried & Hrun & Hext).
    exists e1, tried. split; [done|]. intros after'. simpl.
    rewrite Hable, Hrun. reflexivity.
  - apply Forall_cons in Hbefore as [Hr' Hbefore].
    destruct (validateable r' item) eqn:Hable'.
    + destruct Hr' as [|Hfalse]; [congruence|].
      destruct (returns_at_run _ _ _ _ e Hfalse eq_refl) as (e1 & tried1 & Hrun & Hext1).
      assert (path e1 = path e) as Hp by apply Hext1.
      destruct (IH e1) as (e2 & tried2 & Hext2 & Hgo).
      { by rewrite Hp. } { by rewrite Hp. }
      exists e2, (tried1 ++ tried2). split; [by eapply extends_trans|].
      intros after'. simpl. rewrite Hable', Hrun. exact (Hgo after').
    + destruct (IH e Hbefore Htrue) as (e1 & tried & Hext & Hgo).
      exists e1, tried. split; [done|]. intros after'. simpl.
      rewrite Hable'. apply Hgo.
Qed.

Lemma validate_item_stops (item : Data) (before : list Validator)
    (r : Validator) (e : Errors) :
  Forall (λ r', refuses env (path e) r' item) before →
  takes env (path e) r item →
  ∃ e',
    (∀ after, validate_item env item (map (rule env) (before ++ r :: after)) e
              = Ok (true, e')) ∧
    messages e' = messages e ∧ count e' = count e ∧ path e' = path e.
Proof.
  intros Hbefore Htakes.
  destruct (try_rules_first item before r e Hbefore Htakes)
    as (e1 & tried & Hext & Htry).
  exists (back_out_errors (count e1 - count e) e1).
  destruct (back_out_extends _ _ _ Hext) as (Hm & Hp & _).
  rewrite app_nil_r in Hm. split; [|split; [done|split; [|done]]].
  - intros after. unfold validate_item. rewrite Htry. reflexivity.
  - exact (f_equal (λ l, Z.of_nat (length l)) Hm).
Qed.

Lemma returns_at_functional (p : list string) (v : Validator) (item : Data) :
  returns_at env p v item true → returns_at env p v item false → False.
Proof.
  intros Ht Hf.
  destruct (returns_at_run p v item true (mkErrors [] p None) Ht eq_refl)
    as (? & ? & Hrun1 & _).
  destruct (returns_at_run p v item false (mkErrors [] p None) Hf eq_refl)
    as (? & ? & Hrun2 & _).
  congruence.
Qed.

(** Among rules that return, the first that takes the item is preceded
    by rules that refuse it. *)
Lemma first_taker (item : Data) (rules : list Validator) (p : list string) :
  forallb (well_built env) rules = true →
  Exists (λ r, takes env p r item) rules →
  ∃ before r after,
    rules = before ++ r :: after ∧
    Forall (λ r', refuses env p r' item) before ∧ takes env p r item.
Proof.
  induction rules as [|r0 rest IH]; intros Hw Hex; [by apply Exists_nil in Hex|].
  simpl in Hw. apply andb_true_iff in Hw as [Hw0 Hw].
  assert (refuses env p r0 item → Exists (λ r, takes env p r item) rest →
          ∃ before r after,
            r0 :: rest = before ++ r :: after ∧
            Forall (λ r', refuses env p r' item) before ∧ takes env p r item)
    as Hskip.
  { intros Hr0 Hrest. destruct (IH Hw Hrest) as (before & r & after & -> & Hb & Ht).
    exists (r0 :: before), r, after. split; [done|]. split; [by constructor | done]. }
  destruct (validateable r0 item) eqn:Hable.
  - destruct (validate_returns r0 Hw0 item Hable (mkErrors [] p None))
      as ([|] & e' & Hrun); simpl in Hrun.
    + exists [], r0, rest. split; [done|]. split; [constructor|].
      split; [done|]. by exists (mkErrors [] p None), e'.
    + assert (returns_at env p r0 item false) as Hfalse
        by (by exists (mkErrors [] p None), e').
      apply Hskip; [by right|].
      apply Exists_cons in Hex as [[_ Htrue]|Hrest]; [|done].
      destruct (returns_at_functional _ _ _ Htrue Hfalse).
  - apply Hskip; [by left|].
    apply Exists_cons in Hex as [[Htrue _]|Hrest]; [congruence | done].
Qed.

(** C1, as the code has it: when a rule of the list takes the item and
    every rule before it refuses the item, by not applying to it or by
    returning [False], [validate_item] returns [True] at that rule,
    whatever comes after it, and the collector holds the messages it
    held before the call: what the rules before it have logged is gone,
    and the count of messages is what it was. Nothing is asked of the
    rules after it, and nothing of a rule before it that does not apply
    to the item. *)
Theorem validate_item_first_success (item : Data) (before : list Validator)
    (r : Validator) (after : list Validator) (e : Errors) :
  Forall (λ r', refuses env (path e) r' item) before →
  takes env (path e) r item →
  ∃ e',
    validate_item env item (map (rule env) (before ++ r :: after)) e = Ok (true, e') ∧
    (∀ after', validate_item env item (map (rule env) (before ++ r :: after')) e
               = Ok (true, e')) ∧
    messages e' = messages e ∧ count e' = count e ∧ path e' = path e.
Proof.
  intros Hbefore Htakes.
  destruct (validate_item_stops item before r e Hbefore Htakes)
    as (e' & Hrun & Hm & Hc & Hp).
  exists e'. split; [apply Hrun|]. split; [exact Hrun | done].
Qed.

(** ** The sequence rule *)

Lemma validate_RootValidator (m : option string) (valid : list Validator) :
  validate env (RootValidator m valid) = RootValidator_validate env (map (rule env) valid).
Proof. reflexivity. Qed.

Lemma validate_ListValidator (m : option string) (valid : list Validator) :
  validate env (ListValidator m valid) = ListValidator_validate env (map (rule env) valid).
Proof. reflexivity. Qed.

Lemma validate_DictValidator (m : option string)
    (reject : list (string * option string)) (any_key : list Validator)
    (required_keys : list string) (kvs : list (Validator * Validator))
    (valid : list (string * list Validator)) :
  validate env (DictValidator m reject any_key required_keys kvs valid)
  = DictValidator_validate env reject (map (rule env) any_key) required_keys
      (bound_pairs env kvs) (bound_lists env valid).
Proof. reflexivity. Qed.


Lemma ListValidator_validate_counted (valid : list Rule) (d : Data)
    (e e' : Errors) (b : bool) :
  ListValidator_validate env valid d e = Ok (b, e') → b = (count e =? count e').
Proof.
  unfold ListValidator_validate.
  destruct d; try (intros [= <- <-]; symmetry; apply Z.eqb_neq; unfold count, add;
                   simpl; rewrite length_app; simpl; lia).
  destruct (for_each _ l _) as [e2|]; [|done]. cbn [mbind Result_bind].
  destruct (path_remove_level e2) as [e3|]; [|done]. by intros [= <- <-].
Qed.


(** ** The mapping rule and the order of the keys *)

Lemma scoped_logs (g : Errors → Result Errors) (e e' : Errors) :
  scoped g → marked e → path e ≠ [] → g e = Ok e' →
  ∃ added, messages e' = messages e ++ added ∧
           logs g (parent_path (path e)) added.
Proof.
  intros Hg Hm Hne Hrun.
  destruct (Hg e e' Hm Hne Hrun) as (_ & _ & _ & added & Hmsg & Hre).
  exists added. split; [done|]. intros e2 Hm2 Hne2 Hpar.
  destruct (Hre e2 Hm2 Hne2 Hpar) as (e2' & Hrun2 & Hmsg2).
  destruct (Hg e2 e2' Hm2 Hne2 Hrun2) as (? & ? & ? & _).
  exists e2'. repeat split; try done. congruence.
Qed.

(** A collector in an opened segment under the path [p]. *)
Lemma opened_under (p : list string) :
  ∃ e, marked e ∧ path e ≠ [] ∧ parent_path (path e) = p ∧ messages e = [].
Proof.
  exists (path_add_level "?" (mkErrors [] p None)).
  destruct (marked_open (mkErrors [] p None)) as [? ?].
  repeat split; try done. simpl. apply parent_path_snoc.
Qed.

Lemma logs_cons_inv {A} (body : A → Errors → Result Errors) (x : A) (xs : list A)
    (p added : list string) :
  (∀ y, scoped (body y)) → logs (for_each body (x :: xs)) p added →
  ∃ a1 a2, added = a1 ++ a2 ∧ logs (body x) p a1 ∧ logs (for_each body xs) p a2.
Proof.
  intros Hsc Hlogs. destruct (opened_under p) as (e & Hm & Hne & Hpar & Hnil).
  destruct (Hlogs e Hm Hne Hpar) as (e' & Hrun & Hmsg & _). simpl in Hrun.
  destruct (body x e) as [e1|] eqn:Hx; [|done]. cbn [mbind Result_bind] in Hrun.
  destruct (scoped_logs _ e e1 (Hsc x) Hm Hne Hx) as (a1 & Hmsg1 & Hl1).
  destruct (Hsc x e e1 Hm Hne Hx) as (Hm1 & Hne1 & Hpar1 & _).
  destruct (scoped_logs _ e1 e' (scoped_for_each body xs (λ y _, Hsc y)) Hm1 Hne1 Hrun)
    as (a2 & Hmsg2 & Hl2).
  exists a1, a2. rewrite Hpar1, Hpar in Hl2. rewrite Hpar in Hl1.
  split; [|done]. rewrite Hmsg2, Hmsg1, Hnil in Hmsg. simpl in Hmsg. done.
Qed.


Lemma logs_nil_inv {A} (body : A → Errors → Result Errors) (p added : list string) :
  logs (for_each body []) p added → added = [].
Proof.
  intros Hlogs. destruct (opened_under p) as (e & Hm & Hne & Hpar & Hnil).
  destruct (Hlogs e Hm Hne Hpar) as (e' & [= <-] & Hmsg & _).
  rewrite Hnil in Hmsg. done.
Qed.




(** The mapping rule in terms of what the loop over its items logs. *)
Lemma DictValidator_validate_logs (reject : list (string * option string))
    (any_key : list Rule) (ks : list string) (kvs : list (Rule * Rule))
    (valid : list (string * list Rule)) (items : list (Data * Data))
    (e : Errors) (added : list string) :
  logs (for_each (dict_item env reject any_key kvs valid) items) (path e) added →
  ∃ e', DictValidator_validate env reject any_key ks kvs valid (DDict items) e
        = Ok (is_empty (added ++ missing_required ks items (path e)), e') ∧
        messages e' = messages e ++ added ++ missing_required ks items (path e) ∧
        path e' = path e.
Proof.
  intros Hlogs. unfold DictValidator_validate.
  destruct (marked_open e) as [Hm Hne].
  destruct (Hlogs _ Hm Hne) as (e2 & -> & Hmsg & Hm2 & Hne2 & Hpar2).
  { simpl. apply parent_path_snoc. }
  cbn [mbind Result_bind]. rewrite path_remove_level_marked by done.
  cbn [mbind Result_bind]. rewrite Hpar2.
  set (e3 := mkErrors (messages e2) (path e) _).
  pose proof (add_required_extends ks items e3) as (Hmsg4 & Hp4 & _).
  simpl in Hmsg4, Hp4, Hmsg. rewrite Hmsg, <- app_assoc in Hmsg4.
  eexists. split; [|split; [exact Hmsg4 | exact Hp4]].
  do 2 f_equal. apply (count_extends e). repeat split; [done | done|].
  intros _. unfold marked. simpl.
  assert (marked e3) as He3 by done.
  generalize (proj2 (proj2 (add_required_extends ks items e3)) He3). done.
Qed.

Lemma steady_dict_bound (any_key : list Validator)
    (kvs : list (Validator * Validator)) (valid : list (string * list Validator)) :
  steady_dict (map (rule env) any_key) (bound_pairs env kvs) (bound_lists env valid).
Proof.
  split; [apply steady_rules | split]; apply Forall_map, Forall_forall.
  - intros [a b] _. split; intros d; apply steady_validate.
  - intros [k rs] _. apply steady_rules.
Qed.


(** ** The mapping rule and the priority of its rules *)



Lemma get_key_bound_lists (key : Data) (valid : list (string * list Validator)) :
  get_key key (bound_lists env valid) = map (rule env) <$> get_key key valid.
Proof.
  destruct key; try done. simpl.
  induction valid as [|[k rs] valid IH]; simpl; [done|].
  by destruct (String.eqb k s).
Qed.









(** ** validate and validateable *)

(** C3, as the code has it: for the rules that test the type of the
    value themselves, [validate] returns [True] only on a value the
    rule applies to. *)
Theorem validate_implies_validateable (v : Validator) (d : Data) (e e' : Errors) :
  type_tested v = true → validate env v d e = Ok (true, e') →
  validateable v d = true.
Proof.
  revert d e e'. induction v; intros d e e' Ht Hrun; try done;
    try (by eapply IHv);
    destruct d; try done; simpl in Hrun;
    unfold NumberValidator_validate, IntegerValidator_validate,
      DecimalValidator_validate, BooleanValidator_validate,
      TextValidator_validate, RegexpValidator_validate,
      RegexpMatchValidator_validate, FileValidator_validate,
      UrlValidator_validate, ListValidator_validate, DictValidator_validate,
      check_type in Hrun; simpl in Hrun;
    repeat case_match; try done; congruence.
Qed.

(** ** Failing without a message *)

(** C4 fails on [equals]: when the value is not equal to the accepted
    one its [validate] returns [False] and leaves the collector as it
    found it, with the same messages and the same count. *)
Theorem EqualsValidator_validate_silent (m : option string) (valid data : Data)
    (e : Errors) :
  py_eq valid data = false →
  ∃ e', validate env (EqualsValidator m valid) data e = Ok (false, e') ∧
        messages e' = messages e ∧ count e' = count e.
Proof.
  intros Hne. exists e. simpl. unfold EqualsValidator_validate. by rewrite Hne.
Qed.

Lemma item_added_nonempty (item : Data) (rules : list Rule) (p tried : list string) :
  item_added env item rules p false tried ≠ [].
Proof.
  unfold item_added, item_failure. destruct tried; [|done].
  by destruct (custom_messages rules).
Qed.

Lemma extends_count (e e' : Errors) (added : list string) :
  extends e e' added → added ≠ [] → count e < count e'.
Proof.
  intros (Hm & _) Hne. unfold count. rewrite Hm, length_app.
  destruct added; [done | simpl; lia].
Qed.

Lemma validate_item_false_logs (item : Data) (rules : list Rule) (e e' : Errors) :
  Forall steady_rule rules →
  validate_item env item rules e = Ok (false, e') → count e < count e'.
Proof.
  intros Hall Hrun.
  assert (∃ e1, try_rules item rules e = Ok (false, e1)) as [e1 Htry].
  { unfold validate_item in Hrun.
    destruct (try_rules item rules e) as [[[|] e1]|]; [done | by eauto | done]. }
  destruct (steady_try_rules item rules Hall e false e1 Htry) as (tried & Hext & _).
  destruct (validate_item_try item rules e e1 false tried Htry Hext)
    as (e'' & Hv & Hext').
  rewrite Hv in Hrun. injection Hrun as <-.
  eapply extends_count; [done | apply item_added_nonempty].
Qed.

Lemma DictValidator_validate_counted (reject : list (string * option string))
    (any_key : list Rule) (ks : list string) (kvs : list (Rule * Rule))
    (valid : list (string * list Rule)) (d : Data) (e e' : Errors) (b : bool) :
  DictValidator_validate env reject any_key ks kvs valid d e = Ok (b, e') →
  b = (count e =? count e').
Proof.
  unfold DictValidator_validate.
  destruct d; try (intros [= <- <-]; symmetry; apply Z.eqb_neq; unfold count, add;
                   simpl; rewrite length_app; simpl; lia).
  destruct (for_each _ items _) as [e2|]; [|done]. cbn [mbind Result_bind].
  destruct (path_remove_level e2) as [e3|]; [|done]. by intros [= <- <-].
Qed.

(** Every other rule logs at least one message when it fails. *)
Lemma validate_false_logs (v : Validator) (d : Data) (e e' : Errors) :
  logs_on_failure v = true → validate env v d e = Ok (false, e') →
  count e < count e'.
Proof.
  revert d e e'. induction v; intros d e e' Hl Hrun; try done;
    try (by eapply IHv).
  all: try (destruct (steady_validate _ _ _ _ _ Hrun) as (added & Hext & _);
            first [ rewrite validate_ListValidator in Hrun;
                    apply ListValidator_validate_counted in Hrun
                  | rewrite validate_DictValidator in Hrun;
                    apply DictValidator_validate_counted in Hrun ];
            symmetry in Hrun; apply Z.eqb_neq in Hrun;
            destruct Hext as (Hm & _); unfold count in *;
            rewrite Hm, length_app in *; lia).
  all: try (rewrite validate_RootValidator in Hrun;
            by eapply validate_item_false_logs; [apply steady_rules|]).
  all: simpl in Hrun;
    unfold ChoiceValidator_validate, NumberValidator_validate,
      IntegerValidator_validate, DecimalValidator_validate,
      BooleanValidator_validate, TextValidator_validate,
      RegexpValidator_validate, RegexpMatchValidator_validate,
      FileValidator_validate, PathValidator_validate, UrlValidator_validate,
      QualityValidator_validate, QualityRequirementsValidator_validate,
      check_type in Hrun;
    repeat (first [case_match | progress cbn [mbind Result_bind] in Hrun]);
    try done; injection Hrun as <-; unfold count, add; simpl;
    rewrite length_app; simpl; lia.
Qed.

(** ** The choice rule *)

(** C9: a choice rule that accepts ['Foo'] without regard to case takes
    ['foo'] and ['FOO'] and not ['Foo '] with its trailing blank. A value
    is taken when it is equal to an accepted value, or when it is a
    string whose lower case form is in the list kept for the comparison
    without case, where [accept] has stored the lower case form. *)
Theorem ChoiceValidator_ignore_case :
  factory "choice" = Ok (ChoiceValidator None [] []) ∧
  ChoiceValidator_accept (DStr "Foo") true None [] []
  = Ok (ChoiceValidator None [] ["foo"]) ∧
  (∀ e, validate env (ChoiceValidator None [] ["foo"]) (DStr "foo") e = Ok (true, e)) ∧
  (∀ e, validate env (ChoiceValidator None [] ["foo"]) (DStr "FOO") e = Ok (true, e)) ∧
  (∀ e, ∃ e', validate env (ChoiceValidator None [] ["foo"]) (DStr "Foo ") e
              = Ok (false, e') ∧ count e' = count e + 1) ∧
  (∀ m valid valid_ic data e, ∃ e',
     validate env (ChoiceValidator m valid valid_ic) data e
     = Ok (existsb (py_eq data) valid
           || match data with
              | DStr s => existsb (String.eqb (lower s)) valid_ic
              | _ => false
              end, e')) ∧
  (∀ s m valid valid_ic,
     ChoiceValidator_accept (DStr s) true m valid valid_ic
     = Ok (ChoiceValidator m valid (valid_ic ++ [lower s]))).
Proof.
  repeat split; try reflexivity.
  - intros e. eexists. split; [reflexivity|].
    unfold count, add. simpl. rewrite length_app. simpl. lia.
  - intros m valid valid_ic data e. simpl. unfold ChoiceValidator_validate.
    destruct (existsb (py_eq data) valid); simpl; [by eauto|].
    destruct (match data with DStr s => _ | _ => false end); by eauto.
Qed.

End Validation.

(** ** Schema of the mapping rule *)

Lemma dict_properties_raises (valid : list (string * list Validator))
    (properties : list (string * Schema)) :
  Exists (λ p, snd p ≠ []) valid →
  dict_properties valid properties = Raise TypeError.
Proof.
  intros Hex. revert properties.
  induction Hex as [[k vs] valid Hne|[k vs] valid _ IH]; intros properties; simpl.
  - by destruct vs.
  - destruct vs; simpl; [apply IH | done].
Qed.

(** C6 fails: [schema] of a mapping rule that has rules for a key raises
    [TypeError], because [any_schema] is handed a generator of rules and
    takes its length. *)
Theorem DictValidator_schema_raises (m : option string)
    (reject : list (string * option string)) (any_key : list Validator)
    (required_keys : list string) (kvs : list (Validator * Validator))
    (valid : list (string * list Validator)) :
  Exists (λ p, snd p ≠ []) valid →
  schema (DictValidator m reject any_key required_keys kvs valid) = Raise TypeError.
Proof. intros Hex. simpl. by rewrite dict_properties_raises. Qed.

Lemma DictValidator_schema_raises_witness :
  (factory "dict" ≫= DictValidator_accept (TextValidator None) "a" false)
  = Ok (DictValidator None [] [] [] [] [("a", [TextValidator None])]) ∧
  schema (DictValidator None [] [] [] [] [("a", [TextValidator None])])
  = Raise TypeError.
Proof.
  split; [reflexivity|].
  apply (DictValidator_schema_raises None [] [] [] [] [("a", [TextValidator None])]).
  by left.
Defined.

(** ** Instances *)

Lemma validate_item_first_success_witness :
  (∃ e',
     validate_item bare_env (DStr "x")
       (map (rule bare_env)
          ([ChoiceValidator None [DStr "y"] []]
           ++ TextValidator None :: [IntegerValidator None]))
       new_errors = Ok (true, e') ∧
     (∀ after',
        validate_item bare_env (DStr "x")
          (map (rule bare_env)
             ([ChoiceValidator None [DStr "y"] []] ++ TextValidator None :: after'))
          new_errors = Ok (true, e')) ∧
     messages e' = messages new_errors ∧ count e' = count new_errors ∧
     path e' = path new_errors) ∧
  (∃ e',
     validate_item paren_env (DInt 5)
       (map (rule paren_env)
          ([UrlValidator None ["("]] ++ IntegerValidator None :: []))
       new_errors = Ok (true, e') ∧
     (∀ after',
        validate_item paren_env (DInt 5)
          (map (rule paren_env)
             ([UrlValidator None ["("]] ++ IntegerValidator None :: after'))
          new_errors = Ok (true, e')) ∧
     messages e' = messages new_errors ∧ count e' = count new_errors ∧
     path e' = path new_errors).
Proof.
  split.
  - apply (validate_item_first_success bare_env (DStr "x")
             [ChoiceValidator None [DStr "y"] []] (TextValidator None)
             [IntegerValidator None] new_errors).
    + constructor; [|constructor]. right. by eexists new_errors, _.
    + split; [reflexivity|]. by eexists new_errors, _.
  - apply (validate_item_first_success paren_env (DInt 5)
             [UrlValidator None ["("]] (IntegerValidator None) [] new_errors).
    + constructor; [|constructor]. by left.
    + split; [reflexivity|]. by eexists new_errors, _.
Defined.

(** C1 fails on a list in which a rule before the one that takes the
    item raises: the url rule applies to every string, and its
    [validate] raises when its protocols do not make a pattern. *)
Lemma validate_item_raising_candidate :
  takes paren_env [] (TextValidator None) (DStr "x") ∧
  validate_item paren_env (DStr "x")
    (map (rule paren_env) [UrlValidator None ["("]; TextValidator None]) new_errors
  = Raise ReError ∧
  ¬ (∀ env item rules e,
       Exists (λ r, takes env (path e) r item) rules →
       ∃ e', validate_item env item (map (rule env) rules) e = Ok (true, e')).
Proof.
  assert (takes paren_env [] (TextValidator None) (DStr "x")) as Htakes.
  { split; [reflexivity|]. by eexists new_errors, _. }
  split; [done|]. split; [reflexivity|]. intros H.
  destruct (H paren_env (DStr "x") [UrlValidator None ["("]; TextValidator None]
              new_errors) as [e' He'].
  - by apply Exists_cons_tl, Exists_cons_hd.
  - discriminate He'.
Qed.


(** The words of the two messages of the mapping rule, on an example:
    the keys with rules come in ascending order. *)
Lemma dict_item_messages :
  dict_item bare_env [("bar", Some "no $key here")] [] []
    (bound_lists bare_env [("b", [TextValidator None]); ("a", [TextValidator None])])
    (DStr "c", DInt 1) (path_add_level "?" new_errors)
  = Ok (mkErrors ["[/dict:c] key 'c' is not recognized, valid keys: a, b"]
          ["dict:c"] (Some 0)) ∧
  dict_item bare_env [("bar", None)] [] [] []
    (DStr "c", DInt 1) (path_add_level "?" new_errors)
  = Ok (mkErrors ["[/dict:c] key 'c' is not recognized"] ["dict:c"] (Some 0)) ∧
  dict_item bare_env [("bar", None)] [] [] []
    (DStr "bar", DInt 1) (path_add_level "?" new_errors)
  = Ok (mkErrors ["[/dict:bar] key 'bar' is forbidden here"] ["dict:bar"] (Some 0)).
Proof. by repeat split. Qed.

(** C3 fails on [equals]: a fresh [equals] rule validates the empty
    list, to which it does not apply. *)
Lemma validate_without_validateable :
  factory "equals" = Ok (EqualsValidator None (DList [])) ∧
  ¬ (∀ v d e e', validate bare_env v d e = Ok (true, e') → validateable v d = true).
Proof.
  split; [reflexivity|]. intros H.
  by specialize (H (EqualsValidator None (DList [])) (DList [])
                   new_errors new_errors eq_refl).
Qed.

Lemma validate_implies_validateable_witness :
  validateable (TextValidator None) (DStr "a") = true.
Proof.
  apply (validate_implies_validateable bare_env (TextValidator None) (DStr "a")
           new_errors new_errors); reflexivity.
Defined.

Lemma EqualsValidator_validate_silent_witness :
  ∃ e', validate bare_env (EqualsValidator None (DStr "a")) (DStr "b") new_errors
        = Ok (false, e') ∧
        messages e' = [] ∧ count e' = 0.
Proof.
  apply (EqualsValidator_validate_silent bare_env None (DStr "a") (DStr "b")
           new_errors). reflexivity.
Defined.

(** [choice] and [path] are left out of [type_tested] for cause: a
    [long] is equal to an accepted [int], and a path rule that allows a
    missing path looks at nothing. *)
Lemma ChoiceValidator_validate_long :
  validate bare_env (ChoiceValidator None [DInt 5] []) (DLong 5) new_errors
  = Ok (true, new_errors) ∧
  validateable (ChoiceValidator None [DInt 5] []) (DLong 5) = false.
Proof. by split. Qed.

Lemma PathValidator_validate_allow_missing :
  validate bare_env (PathValidator None false true) (DInt 5) new_errors
  = Ok (true, new_errors) ∧
  validateable (PathValidator None false true) (DInt 5) = false.
Proof. by split. Qed.


(** The label is [data.index(item)]: an element that is equal to an
    earlier one is logged under the position of that one. *)
Lemma ListValidator_validate_repeated :
  validate bare_env (ListValidator None [TextValidator None])
    (DList [DInt 2; DInt 2]) new_errors
  = Ok (false,
        mkErrors ["[/list:0] must be a `text` value";
                  "[/list:0] value '2' is not valid text";
                  "[/list:0] must be a `text` value";
                  "[/list:0] value '2' is not valid text"] [] (Some (-1))).
Proof. reflexivity. Qed.


Lemma back_out_errors_frame_witness :
  ∃ removed,
    Z.of_nat (length removed) = 1 ∧
    ["a"; "b"] = messages (back_out_errors 1 (mkErrors ["a"; "b"] [] None)) ++ removed.
Proof.
  destruct (back_out_errors_frame (mkErrors ["a"; "b"] [] None) 1) as [_ Hlast].
  destruct Hlast as (removed & Hlen & Hm & _); [by compute|].
  by exists removed.
Defined.


(** * Further properties *)

(** ** The collector, continued *)

Lemma add_all_messages (msgs : list string) (e : Errors) :
  add_all msgs e
  = mkErrors (messages e ++ map (located (path e)) msgs) (path e) (path_level e).
Proof.
  unfold add_all. revert e. induction msgs as [|m msgs IH]; intros e; simpl.
  - rewrite app_nil_r. by destruct e.
  - rewrite IH. simpl. by rewrite <- app_assoc.
Qed.

(** X1: backing out as many messages as were added gives back the
    collector of before, whatever the path: [back_out_errors] undoes
    [add]. *)
Theorem back_out_errors_add_all (msgs : list string) (e : Errors) :
  count (add_all msgs e) = count e + Z.of_nat (length msgs) ∧
  back_out_errors (Z.of_nat (length msgs)) (add_all msgs e) = e.
Proof.
  rewrite add_all_messages. split.
  - unfold count. simpl. rewrite length_app, length_map. lia.
  - set (e' := mkErrors _ _ _).
    replace (Z.of_nat (length msgs))
      with (count e' - Z.of_nat (length (messages e))).
    + rewrite (back_out_errors_appended e' (messages e)
                 (map (located (path e)) msgs)) by done.
      by destruct e.
    + unfold count, e'. simpl. rewrite length_app, length_map. lia.
Qed.

Lemma path_add_level_marked (value : string) (e : Errors) :
  marked (path_add_level value e) ∧ path (path_add_level value e) ≠ [] ∧
  parent_path (path (path_add_level value e)) = path e.
Proof.
  split; [|split].
  - unfold marked. simpl. rewrite length_app. simpl. f_equal. lia.
  - simpl. by destruct (path e).
  - simpl. apply parent_path_snoc.
Qed.

(** X2: the one marker works as a stack as long as the calls nest. An
    inner segment that is opened, relabelled and closed leaves the
    marker on the outer segment: the next [path_update_value] relabels
    the outer segment, messages are located under the segments open at
    the time, and the last [path_remove_level] gives back the path of
    before. *)
Theorem path_level_nesting (e : Errors) (v1 v2 w1 w2 m1 m2 : string) :
  run_calls [CallOpen v1; CallOpen v2; CallUpdate w2; CallAdd m2; CallClose;
             CallUpdate w1; CallAdd m1; CallClose] e
  = Ok (mkErrors (messages e ++ [located (path e ++ [v1; w2]) m2;
                                 located (path e ++ [w1]) m1])
          (path e) (Some (Z.of_nat (length (path e)) - 1))).
Proof.
  cbn [run_calls run_call mbind Result_bind].
  destruct (path_add_level_marked v1 e) as (Hm1 & Hn1 & Hp1).
  destruct (path_add_level_marked v2 (path_add_level v1 e)) as (Hm2 & Hn2 & Hp2).
  rewrite path_update_value_marked by done. cbn [mbind Result_bind].
  rewrite Hp2.
  set (e3 := add m2 _).
  assert (marked e3 ∧ path e3 = path e ++ [v1; w2]) as [Hm3 Hpath3].
  { unfold e3, marked. simpl. rewrite <- app_assoc. split; [|done].
    rewrite !length_app. simpl. f_equal; lia. }
  rewrite path_remove_level_marked; [|done|by rewrite Hpath3; destruct (path e)].
  cbn [mbind Result_bind].
  replace (parent_path (path e3)) with (path e ++ [v1])
    by (rewrite Hpath3; change [v1; w2] with ([v1] ++ [w2]);
        by rewrite app_assoc, parent_path_snoc).
  set (e4 := mkErrors _ _ _).
  assert (marked e4 ∧ path e4 = path e ++ [v1]) as [Hm4 Hpath4] by done.
  rewrite path_update_value_marked; [|done|by rewrite Hpath4; destruct (path e)].
  cbn [mbind Result_bind]. rewrite Hpath4, parent_path_snoc.
  set (e6 := add m1 _).
  assert (marked e6 ∧ path e6 = path e ++ [w1]) as [Hm6 Hpath6].
  { unfold e6, marked. simpl. split; [|done].
    rewrite !length_app. simpl. f_equal; lia. }
  rewrite path_remove_level_marked; [|done|by rewrite Hpath6; destruct (path e)].
  rewrite Hpath6, parent_path_snoc. unfold e6, e4, e3. simpl.
  unfold located. rewrite <- !app_assoc. reflexivity.
Qed.

(** ** The registry *)

(** X3: for the name of each concrete class [factory] returns, and the
    rule it returns has that name; for a name that is neither one of
    these nor [validator], the name of the base class, it raises. *)
Theorem factory_name (kind : string) :
  (kind ∈ concrete_kinds → ∃ v, factory kind = Ok v ∧ name v = kind) ∧
  (kind ∉ "validator" :: concrete_kinds →
   factory kind = Raise (Exception ("Asked unknown validator '" ++ kind ++ "'"))).
Proof.
  split.
  - intros Hin. unfold concrete_kinds in Hin.
    repeat (apply elem_of_cons in Hin as [->|Hin]; [by eexists|]).
    by apply elem_of_nil in Hin.
  - intros Hnot. unfold factory.
    repeat (destruct (String.eqb kind _) eqn:E;
            [apply String.eqb_eq in E; subst kind; exfalso; apply Hnot;
             apply elem_of_cons; right; unfold concrete_kinds;
             repeat (first [apply list_elem_of_here | apply list_elem_of_further])
            | clear E]).
    done.
Qed.

(** ** Schema documents *)

Lemma dict_properties_empty (valid : list (string * list Validator))
    (properties : list (string * Schema)) :
  existsb (λ p, negb (is_empty (snd p))) valid = false →
  dict_properties valid properties = Ok properties.
Proof.
  induction valid as [|[k vs] valid IH]; simpl; [done|].
  destruct vs; simpl; [exact IH | done].
Qed.

Lemma dict_properties_keyed (valid : list (string * list Validator))
    (properties : list (string * Schema)) :
  existsb (λ p, negb (is_empty (snd p))) valid = true →
  dict_properties valid properties = Raise TypeError.
Proof.
  revert properties. induction valid as [|[k vs] valid IH]; intros properties;
    simpl; [done|].
  destruct vs; simpl; [apply IH | done].
Qed.

Lemma comprehension_schema (valid : list Validator) :
  Forall schema_outcome valid →
  if existsb keyed valid then comprehension schema valid = Raise TypeError
  else ∃ l, comprehension schema valid = Ok l ∧
            Forall (λ s, ∃ fields, s = SObject fields) l.
Proof.
  induction 1 as [|v valid Hv _ IH]; simpl; [by exists []|].
  unfold schema_outcome in Hv. destruct (keyed v); simpl.
  - by rewrite Hv.
  - destruct Hv as [fields ->]. cbn [mbind Result_bind].
    destruct (existsb keyed valid).
    + by rewrite IH.
    + destruct IH as (l & -> & Hl). cbn [mbind Result_bind].
      eexists. split; [done|]. constructor; [by eexists | done].
Qed.

Lemma any_schema_object (l : list Schema) :
  Forall (λ s, ∃ fields, s = SObject fields) l →
  ∃ fields, any_schema (PyList l) = Ok (SObject fields).
Proof.
  intros Hl. destruct l as [|s [|s' l]]; simpl; [by eexists| |by eexists].
  apply Forall_cons in Hl as [[fields ->] _]. by eexists.
Qed.

Lemma schema_outcome_all (v : Validator) : schema_outcome v.
Proof.
  induction v as [v Hs|m valid IH|m valid IH|
    m reject any_key required_keys kvs valid IHa _ _|built v IH]
    using Validator_nested_ind; unfold schema_outcome.
  - destruct v; try done; cbn [keyed schema]; try by eexists.
    all: destruct regexps as [|r [|r' regexps]], reject_regexps as [|j [|j' js]];
      simpl; by eexists.
  - cbn [keyed schema]. pose proof (comprehension_schema valid IH) as Hc.
    destruct (existsb keyed valid); [by rewrite Hc|].
    destruct Hc as (l & -> & Hl). cbn [mbind Result_bind]. by apply any_schema_object.
  - cbn [keyed schema]. pose proof (comprehension_schema valid IH) as Hc.
    destruct (existsb keyed valid); [by rewrite Hc|].
    destruct Hc as (l & -> & Hl). cbn [mbind Result_bind].
    destruct (any_schema_object l Hl) as [fields Hs]. eexists. by rewrite Hs.
  - cbn [keyed schema].
    destruct (existsb (λ p, negb (is_empty (snd p))) valid) eqn:Hk; cbn [orb].
    { by rewrite dict_properties_keyed. }
    rewrite dict_properties_empty by done. cbn [mbind Result_bind].
    pose proof (comprehension_schema any_key IHa) as Hc.
    destruct any_key as [|a any_key]; [by eexists|].
    cbn [is_empty]. destruct (existsb keyed (a :: any_key)); [by rewrite Hc|].
    destruct Hc as (l & -> & Hl). cbn [mbind Result_bind].
    destruct (any_schema_object l Hl) as [fields Hs]. eexists. by rewrite Hs.
  - cbn [keyed schema]. unfold schema_outcome in IH.
    destruct built; simpl; [exact IH | by eexists].
Qed.

(** X4: on a tree of rules of the concrete classes, [schema] raises
    exactly when it meets a mapping rule that has rules for a key, and
    then it raises [TypeError]; on every other such tree it returns. *)
Theorem schema_raises_iff (v : Validator) :
  (keyed v = true ↔ schema v = Raise TypeError) ∧
  (keyed v = false ↔ ∃ s, schema v = Ok s).
Proof.
  pose proof (schema_outcome_all v) as H. unfold schema_outcome in H.
  destruct (keyed v).
  - rewrite H. split; split; try done. by intros [s ?].
  - destruct H as [fields ->]. split; split; try done. by eexists.
Qed.

(** X5: a document [schema] returns is always an object, never a bare
    list or string: [any_schema] of one document is that document, of
    any other number an [anyOf] object. This is what lets
    [RegexpMatchValidator.schema] store its [not] entry. *)
Theorem schema_is_object (v : Validator) (s : Schema) :
  schema v = Ok s → ∃ fields, s = SObject fields.
Proof.
  intros Hs. pose proof (schema_outcome_all v) as H. unfold schema_outcome in H.
  destruct (keyed v); [congruence|]. destruct H as [fields H].
  exists fields. congruence.
Qed.

Lemma schema_is_object_witness :
  ∃ fields,
    SObject [("type", SString "array"); ("items", SObject [("type", SString "string")])]
    = SObject fields.
Proof.
  apply (schema_is_object (ListValidator None [TextValidator None])). reflexivity.
Defined.

(** X6: a rule fresh from [factory] has a schema, whatever concrete
    class it is of: [factory] returns for the name, and [schema]
    returns an object on the rule. *)
Theorem factory_schema (kind : string) :
  kind ∈ concrete_kinds →
  ∃ v fields, factory kind = Ok v ∧ schema v = Ok (SObject fields).
Proof.
  intros Hin. unfold concrete_kinds in Hin.
  repeat (apply elem_of_cons in Hin as [->|Hin]; [by eexists _, _|]).
  by apply elem_of_nil in Hin.
Qed.

Lemma factory_schema_witness :
  ∃ v fields, factory "dict" = Ok v ∧ schema v = Ok (SObject fields).
Proof.
  apply (factory_schema "dict"). unfold concrete_kinds.
  repeat (first [apply list_elem_of_here | apply list_elem_of_further]).
Defined.

(** ** What validate does to the collector *)

Section More.

Context (env : Env).

(** X7: [validate] of any rule on any value only appends to the
    messages of the collector: the messages of before stay where they
    were, the path is the one of before, and so is the marker if it
    pointed at the last segment. *)
Theorem validate_appends (v : Validator) (d : Data) (e e' : Errors) (b : bool) :
  validate env v d e = Ok (b, e') →
  ∃ added, messages e' = messages e ++ added ∧ path e' = path e ∧
           (marked e → path_level e' = path_level e).
Proof.
  intros Hrun.
  destruct (steady_validate env v d e b e' Hrun) as (added & (Hm & Hp & Hk) & _).
  exists added. split; [done|]. split; [done|].
  intros Hmk. specialize (Hk Hmk). unfold marked in *. by rewrite Hk, Hp, Hmk.
Qed.


(** X8: what [validate] returns, and what it appends, depends on the
    collector through its path alone: run on another collector with the
    same path it returns the same and appends the same messages. *)
Theorem validate_same_path (v : Validator) (d : Data) (e1 e1' e2 : Errors)
    (b : bool) :
  validate env v d e1 = Ok (b, e1') → path e2 = path e1 →
  ∃ e2' added,
    validate env v d e2 = Ok (b, e2') ∧
    messages e1' = messages e1 ++ added ∧ messages e2' = messages e2 ++ added.
Proof.
  intros Hrun Hp.
  destruct (steady_validate env v d e1 b e1' Hrun) as (added & (Hm & _) & Hre).
  destruct (Hre e2 Hp) as (e2' & Hrun2 & (Hm2 & _)).
  by exists e2', added.
Qed.


Lemma validate_item_true_clean (item : Data) (rules : list Rule) (e e' : Errors) :
  Forall steady_rule rules →
  validate_item env item rules e = Ok (true, e') → messages e' = messages e.
Proof.
  intros Hall Hrun. unfold validate_item in Hrun.
  destruct (try_rules item rules e) as [[[|] e1]|] eqn:Htry; [| |done].
  - cbn [mbind Result_bind] in Hrun. injection Hrun as <-.
    destruct (steady_try_rules item rules Hall e true e1 Htry) as (tried & Hext & _).
    destruct (back_out_extends _ _ _ Hext) as (Hm & _). by rewrite app_nil_r in Hm.
  - cbn [mbind Result_bind] in Hrun. by repeat case_match.
Qed.

(** X9: a rule that returns [True] leaves no message behind: the
    collector holds the messages it held before the call. *)
Theorem validate_true_clean (v : Validator) (d : Data) (e e' : Errors) :
  validate env v d e = Ok (true, e') → messages e' = messages e ∧ path e' = path e.
Proof.
  intros Hrun.
  split; [|by destruct (steady_validate env v d e true e' Hrun) as (? & (_ & ? & _) & _)].
  revert d e e' Hrun. induction v; intros d e e' Hrun; try (by eapply IHv).
  all: try (destruct (steady_validate env _ _ _ _ _ Hrun) as (added & Hext & _);
            first [ rewrite validate_ListValidator in Hrun;
                    apply ListValidator_validate_counted in Hrun
                  | rewrite validate_DictValidator in Hrun;
                    apply DictValidator_validate_counted in Hrun ];
            rewrite (count_extends _ _ _ Hext) in Hrun;
            destruct Hext as (Hm & _), added; [by rewrite app_nil_r in Hm | done]).
  all: try (rewrite validate_RootValidator in Hrun;
            by eapply validate_item_true_clean; [apply steady_rules|]).
  all: simpl in Hrun;
    unfold ChoiceValidator_validate, EqualsValidator_validate,
      NumberValidator_validate, IntegerValidator_validate,
      DecimalValidator_validate, BooleanValidator_validate, TextValidator_validate,
      RegexpValidator_validate, RegexpMatchValidator_validate,
      FileValidator_validate, PathValidator_validate, UrlValidator_validate,
      QualityValidator_validate, QualityRequirementsValidator_validate,
      check_type in Hrun;
    repeat (first [case_match | progress cbn [mbind Result_bind] in Hrun]);
    try done; by simplify_eq.
Qed.


(** X11: when no rule of the list applies to the item, and also when
    the list is empty, [validate_item] returns [False] and logs the
    custom messages of the rules, or, when no rule has one, the two
    messages that name the kinds asked for and the value got. *)
Theorem validate_item_none_applies (item : Data) (rules : list Validator)
    (e : Errors) :
  Forall (λ r, validateable r item = false) rules →
  ∃ e', validate_item env item (map (rule env) rules) e = Ok (false, e') ∧
        messages e'
        = messages e ++ item_failure env item (map (rule env) rules) (path e) ∧
        item_failure env item (map (rule env) rules) (path e) ≠ [] ∧
        path e' = path e.
Proof.
  intros Hall.
  assert (try_rules item (map (rule env) rules) e = Ok (false, e)) as Htry.
  { induction Hall as [|r rules Hr _ IH]; simpl; [done|]. by rewrite Hr. }
  destruct (validate_item_try env item _ e e false [] Htry (extends_refl e))
    as (e' & Hrun & (Hm & Hp & _)).
  exists e'. split; [done|]. split; [done|]. split; [|done].
  unfold item_failure. by destruct (custom_messages _).
Qed.


End More.

Lemma validate_appends_witness :
  validate bare_env (TextValidator None) (DInt 5) new_errors
  = Ok (false, mkErrors ["[/] value 5 is not valid text"] [] None) ∧
  ∃ added, ["[/] value 5 is not valid text"] = [] ++ added ∧
           @nil string = [] ∧ (marked new_errors → @None Z = None).
Proof.
  split; [reflexivity|].
  exact (validate_appends bare_env (TextValidator None) (DInt 5) new_errors _ false
           eq_refl).
Defined.

Lemma validate_same_path_witness :
  ∃ e2' added,
    validate bare_env (TextValidator None) (DInt 5) (mkErrors ["old"] [] None)
    = Ok (false, e2') ∧
    ["[/] value 5 is not valid text"] = [] ++ added ∧
    messages e2' = ["old"] ++ added.
Proof.
  exact (validate_same_path bare_env (TextValidator None) (DInt 5) new_errors _
           (mkErrors ["old"] [] None) false eq_refl eq_refl).
Defined.

Lemma validate_true_clean_witness :
  validate bare_env (TextValidator None) (DStr "a") (mkErrors ["old"] [] None)
  = Ok (true, mkErrors ["old"] [] None) ∧
  messages (mkErrors ["old"] [] None) = ["old"] ∧
  path (mkErrors ["old"] [] None) = [].
Proof.
  split; [reflexivity|].
  exact (validate_true_clean bare_env (TextValidator None) (DStr "a")
           (mkErrors ["old"] [] None) _ eq_refl).
Defined.

Lemma validate_item_none_applies_witness :
  ∃ e', validate_item bare_env (DInt 5) (map (rule bare_env) [TextValidator None])
          new_errors = Ok (false, e') ∧
        messages e'
        = messages new_errors
          ++ item_failure bare_env (DInt 5) (map (rule bare_env) [TextValidator None])
               (path new_errors) ∧
        item_failure bare_env (DInt 5) (map (rule bare_env) [TextValidator None])
          (path new_errors) ≠ [] ∧
        path e' = path new_errors.
Proof.
  apply (validate_item_none_applies bare_env (DInt 5) [TextValidator None] new_errors).
  by repeat constructor.
Defined.

(** ** Which values a rule validates *)

Section Deciding.

Context (env : Env).

Lemma try_rules_true_takes (item : Data) (rules : list Validator) (e e1 : Errors) :
  try_rules item (map (rule env) rules) e = Ok (true, e1) →
  Exists (λ r, takes env (path e) r item) rules.
Proof.
  revert e. induction rules as [|r rules IH]; intros e Htry; [done|].
  change (try_rules item (map (rule env) (r :: rules)) e)
    with (if validateable r item
          then '(ok, e2) ← validate env r item e;
               if ok : bool then Ok (true, e2)
               else try_rules item (map (rule env) rules) e2
          else try_rules item (map (rule env) rules) e) in Htry.
  destruct (validateable r item) eqn:Hable.
  - destruct (validate env r item e) as [[[|] e2]|] eqn:Hrun;
      cbn [mbind Result_bind] in Htry; [| |done].
    + apply Exists_cons_hd. split; [done|]. by exists e, e2.
    + apply Exists_cons_tl.
      destruct (steady_validate env r item e false e2 Hrun) as (added & (_ & Hp & _) & _).
      rewrite <- Hp. by apply IH.
  - apply Exists_cons_tl. by apply IH.
Qed.

Lemma validate_item_decides (item : Data) (rules : list Validator)
    (e e' : Errors) (b : bool) :
  forallb (well_built env) rules = true →
  validate_item env item (map (rule env) rules) e = Ok (b, e') →
  (b = true ↔ Exists (λ r, takes env (path e) r item) rules).
Proof.
  intros Hw Hrun. split.
  - intros ->. unfold validate_item in Hrun.
    destruct (try_rules item _ e) as [[[|] e1]|] eqn:Htry; [| |done].
    + by eapply try_rules_true_takes.
    + cbn [mbind Result_bind] in Hrun. by repeat case_match.
  - intros Hex.
    destruct (first_taker env item rules (path e) Hw Hex)
      as (before & r & after & -> & Hb & Ht).
    destruct (validate_item_stops env item before r e Hb Ht) as (e'' & Hstop & _).
    rewrite Hstop in Hrun. by injection Hrun.
Qed.

(** X12: a root rule validates a value exactly when one of its rules
    takes it: on rules that are well built [validate] returns, and it
    returns [True] if and only if some child applies to the value and
    validates it. *)
Theorem RootValidator_validate_iff (m : option string) (valid : list Validator)
    (d : Data) (e : Errors) :
  forallb (well_built env) valid = true →
  ∃ b e', validate env (RootValidator m valid) d e = Ok (b, e') ∧
          (b = true ↔ Exists (λ r, takes env (path e) r d) valid).
Proof.
  intros Hw.
  destruct (validate_returns env (RootValidator m valid) Hw d eq_refl e)
    as (b & e' & Hrun).
  exists b, e'. split; [done|].
  exact (validate_item_decides d valid e e' b Hw Hrun).
Qed.

Lemma validate_under_root (v : Validator) (d : Data) (e : Errors) :
  well_built env v = true →
  ∃ b e', validate env (RootValidator None [v]) d e = Ok (b, e') ∧
          (b = true ↔ takes env (path e) v d).
Proof.
  intros Hw.
  assert (forallb (well_built env) [v] = true) as Hws by (simpl; by rewrite Hw).
  destruct (validate_returns env (RootValidator None [v]) Hws d eq_refl e)
    as (b & e' & Hrun).
  exists b, e'. split; [done|].
  rewrite (validate_item_decides d [v] e e' b Hws Hrun).
  split; [|intros ?; by apply Exists_cons_hd].
  intros Hex. apply Exists_cons in Hex as [?|Hex]; [done|]. by apply Exists_nil in Hex.
Qed.

(** X13: [add_root_parent] changes nothing to what a rule validates:
    the root it returns validates a value exactly when the rule takes
    it, and a rule that is a root already is returned as it is. A
    [LazyValidator] answers for the rule it wraps. *)
Theorem add_root_parent_validate (v : Validator) (d : Data) (e : Errors) :
  well_built env v = true →
  name (add_root_parent v) = "root" ∧
  ∃ b e', validate env (add_root_parent v) d e = Ok (b, e') ∧
          (b = true ↔ takes env (path e) v d).
Proof.
  induction v; intros Hw; try (split; [done|]; by apply validate_under_root).
  - split; [done|].
    destruct (validate_returns env _ Hw d eq_refl e)
      as (b & e' & Hrun).
    exists b, e'. split; [done|]. split.
    + intros ->. split; [done|]. by exists e, e'.
    + intros [_ Hret].
      destruct (returns_at_run env _ _ _ _ e Hret eq_refl) as (e2 & added & Hrun2 & _).
      simpl in Hrun, Hrun2. rewrite Hrun2 in Hrun. by injection Hrun.
  - exact (IHv Hw).
Qed.

Lemma for_each_decides {A} (body : A → Errors → Result Errors) (P : A → Prop)
    (p : list string) :
  (∀ y, scoped (body y)) →
  (∀ y a, logs (body y) p a → (a = [] ↔ P y)) →
  ∀ xs added, logs (for_each body xs) p added → (added = [] ↔ Forall P xs).
Proof.
  intros Hsc HP. induction xs as [|x xs IH]; intros added Hlogs.
  - apply logs_nil_inv in Hlogs. by subst.
  - destruct (logs_cons_inv body x xs p added Hsc Hlogs) as (a1 & a2 & -> & H1 & H2).
    rewrite Forall_cons, <- (HP x a1 H1), <- (IH a2 H2).
    split; [by apply app_eq_nil | by intros [-> ->]].
Qed.

Lemma list_item_decides (valid : list Validator) (l : list Data) (x : Data)
    (p a : list string) :
  forallb (well_built env) valid = true →
  logs (list_item env (map (rule env) valid) l x) p a →
  (a = [] ↔ ∃ i, list_index x l = Some i ∧
       Exists (λ r, takes env (p ++ [("list:" ++ pretty (Z.of_nat i))%string]) r x) valid).
Proof.
  intros Hw Hlogs. destruct (opened_under p) as (e & Hm & Hne & Hpar & Hnil).
  destruct (Hlogs e Hm Hne Hpar) as (e' & Hrun & Hmsg & _).
  rewrite Hnil in Hmsg. simpl in Hmsg. unfold list_item in Hrun.
  destruct (list_index x l) as [i|] eqn:Hi; [|done]. cbn [mbind Result_bind] in Hrun.
  rewrite path_update_value_marked in Hrun by done. cbn [mbind Result_bind] in Hrun.
  rewrite Hpar, Hnil in Hrun.
  destruct (validate_item env x _ _) as [[b e2]|] eqn:Hv; [|done].
  cbn [mbind Result_bind] in Hrun. injection Hrun as ->.
  pose proof (validate_item_decides x valid _ e' b Hw Hv) as Hdec. simpl in Hdec.
  destruct b.
  - apply validate_item_true_clean in Hv; [|apply steady_rules].
    split; [|intros _; by rewrite Hmsg in Hv].
    intros _. exists i. split; [done|]. by apply Hdec.
  - apply validate_item_false_logs in Hv; [|apply steady_rules].
    unfold count in Hv. rewrite Hmsg in Hv. simpl in Hv.
    split.
    + intros ->. simpl in Hv. lia.
    + intros (i' & [= <-] & Hex). by apply Hdec in Hex.
Qed.

Lemma ListValidator_validate_run (m : option string) (valid : list Validator)
    (l : list Data) (e e' : Errors) (b : bool) :
  validate env (ListValidator m valid) (DList l) e = Ok (b, e') →
  ∃ added,
    logs (for_each (list_item env (map (rule env) valid) l) l) (path e) added ∧
    b = is_empty added ∧ messages e' = messages e ++ added.
Proof.
  intros Hrun.
  destruct (steady_validate env _ _ e b e' Hrun) as (added & Hext & _).
  rewrite validate_ListValidator in Hrun.
  pose proof (ListValidator_validate_counted env _ _ _ _ _ Hrun) as Hb.
  rewrite (count_extends e e' added Hext) in Hb.
  exists added. split; [|split; [done | apply Hext]].
  unfold ListValidator_validate in Hrun.
  set (body := list_item env (map (rule env) valid) l) in *.
  destruct (for_each body l _) as [e2|] eqn:Hloop; [|done].
  cbn [mbind Result_bind] in Hrun.
  destruct (marked_open e) as [Hm Hne].
  assert (scoped (for_each body l)) as Hsc.
  { apply scoped_for_each. intros x _. apply scoped_list_item, steady_rules. }
  destruct (scoped_logs _ _ e2 Hsc Hm Hne Hloop) as (added2 & Hmsg2 & Hlogs).
  simpl in Hlogs, Hmsg2. rewrite parent_path_snoc in Hlogs.
  destruct (Hsc _ e2 Hm Hne Hloop) as (Hm2 & Hne2 & _).
  rewrite path_remove_level_marked in Hrun by done.
  cbn [mbind Result_bind] in Hrun. injection Hrun as _ <-.
  destruct Hext as (Hmsg & _). simpl in Hmsg. rewrite Hmsg2 in Hmsg.
  apply app_inv_head in Hmsg. by subst.
Qed.

(** X14: a sequence rule validates a list exactly when each element is
    taken by one of its rules, at the path of the element: the segment
    [list:i], where [i] is the position [data.index] gives. *)
Theorem ListValidator_validate_iff (m : option string) (valid : list Validator)
    (l : list Data) (e e' : Errors) (b : bool) :
  forallb (well_built env) valid = true →
  validate env (ListValidator m valid) (DList l) e = Ok (b, e') →
  (b = true ↔
   Forall (λ x, ∃ i, list_index x l = Some i ∧
                     Exists (λ r, takes env (path e ++ [("list:" ++ pretty (Z.of_nat i))%string])
                                    r x) valid) l).
Proof.
  intros Hw Hrun.
  destruct (ListValidator_validate_run m valid l e e' b Hrun) as (added & Hlogs & -> & _).
  rewrite <- (for_each_decides _ _ (path e)
                (λ x, scoped_list_item env _ l x (steady_rules env valid))
                (λ x a, list_item_decides valid l x (path e) a Hw) l added Hlogs).
  by destruct added.
Qed.

End Deciding.

(** ** Which dictionaries a mapping rule validates *)

Section Mapping.

Context (env : Env).

Lemma DictValidator_validate_run (m : option string)
    (reject : list (string * option string)) (any_key : list Validator)
    (ks : list string) (kvs : list (Validator * Validator))
    (valid : list (string * list Validator)) (items : list (Data * Data))
    (e e' : Errors) (b : bool) :
  validate env (DictValidator m reject any_key ks kvs valid) (DDict items) e
  = Ok (b, e') →
  ∃ added,
    logs (for_each (dict_item env reject (map (rule env) any_key)
                      (bound_pairs env kvs) (bound_lists env valid)) items)
      (path e) added ∧
    b = is_empty (added ++ missing_required ks items (path e)) ∧
    messages e' = messages e ++ added ++ missing_required ks items (path e).
Proof.
  intros Hrun. rewrite validate_DictValidator in Hrun.
  set (body := dict_item env reject (map (rule env) any_key) (bound_pairs env kvs)
                 (bound_lists env valid)).
  assert (∀ kv, scoped (body kv)) as Hsc.
  { intros kv. apply scoped_dict_item, steady_dict_bound. }
  destruct (marked_open e) as [Hm Hne].
  assert (∃ e2, for_each body items (path_add_level "?" e) = Ok e2) as [e2 Hloop].
  { unfold DictValidator_validate in Hrun. fold body in Hrun.
    destruct (for_each body items _); [by eauto | done]. }
  destruct (scoped_logs _ _ e2 (scoped_for_each body items (λ x _, Hsc x)) Hm Hne Hloop)
    as (added & _ & Hlogs).
  simpl in Hlogs. rewrite parent_path_snoc in Hlogs.
  destruct (DictValidator_validate_logs env reject _ ks _ _ items e added Hlogs)
    as (e1 & Hrun1 & Hmsg1 & _).
  fold body in Hrun1. rewrite Hrun1 in Hrun. injection Hrun as <- <-.
  by exists added.
Qed.

Lemma logs_for_each_in {A} (body : A → Errors → Result Errors) (xs : list A)
    (p added : list string) (x : A) :
  (∀ y, scoped (body y)) → logs (for_each body xs) p added → x ∈ xs →
  ∃ a, logs (body x) p a ∧ a ⊆ added.
Proof.
  intros Hsc. revert added. induction xs as [|y xs IH]; intros added Hlogs Hin.
  { by apply elem_of_nil in Hin. }
  destruct (logs_cons_inv body y xs p added Hsc Hlogs) as (a1 & a2 & -> & H1 & H2).
  apply elem_of_cons in Hin as [-> |Hin].
  - exists a1. split; [done|]. intros z Hz. apply elem_of_app. by left.
  - destruct (IH a2 H2 Hin) as (a & Ha & Hsub). exists a. split; [done|].
    intros z Hz. apply elem_of_app. right. by apply Hsub.
Qed.

Lemma missing_required_nil (ks : list string) (items : list (Data * Data))
    (p : list string) :
  missing_required ks items p = [] ↔ Forall (λ k, has_key k items = true) ks.
Proof.
  unfold missing_required. induction ks as [|k ks IH]; simpl; [done|].
  rewrite Forall_cons. destruct (has_key k items); simpl.
  - rewrite IH. split; [by split | by intros [_ ?]].
  - split; [done | by intros [? _]].
Qed.

Lemma missing_required_in (ks : list string) (items : list (Data * Data))
    (p : list string) (key : string) :
  key ∈ ks → has_key key items = false →
  located p ("key '" ++ key ++ "' required") ∈ missing_required ks items p.
Proof.
  intros Hin Hk. unfold missing_required.
  apply list_elem_of_In, (in_map (λ k, located p ("key '" ++ k ++ "' required"))).
  apply filter_In. split; [by apply list_elem_of_In|].
  by rewrite Hk.
Qed.

(** X15: a dictionary that lacks a required key is never valid: the
    mapping rule returns [False] and its messages hold
    [key '<key>' required] at the path of the dictionary. *)
Theorem DictValidator_validate_required (m : option string)
    (reject : list (string * option string)) (any_key : list Validator)
    (required_keys : list string) (kvs : list (Validator * Validator))
    (valid : list (string * list Validator)) (items : list (Data * Data))
    (e e' : Errors) (b : bool) (key : string) :
  validate env (DictValidator m reject any_key required_keys kvs valid)
    (DDict items) e = Ok (b, e') →
  key ∈ required_keys → has_key key items = false →
  b = false ∧ located (path e) ("key '" ++ key ++ "' required") ∈ messages e'.
Proof.
  intros Hrun Hin Hk.
  destruct (DictValidator_validate_run _ _ _ _ _ _ _ _ _ _ Hrun)
    as (added & _ & -> & ->).
  pose proof (missing_required_in required_keys items (path e) key Hin Hk) as Hmiss.
  split.
  - destruct added; [|done]. simpl.
    destruct (missing_required _ _ _); [by apply elem_of_nil in Hmiss | done].
  - apply elem_of_app. right. apply elem_of_app. by right.
Qed.

Lemma dict_item_rejected (reject : list (string * option string))
    (any_key : list Rule) (kvs : list (Rule * Rule))
    (valid : list (string * list Rule)) (key value : Data) (msg : option string)
    (p a : list string) :
  get_key key reject = Some msg →
  logs (dict_item env reject any_key kvs valid (key, value)) p a →
  a = [located (p ++ [("dict:" ++ py_str env key)%string]) (forbidden env msg key)].
Proof.
  intros Hk Hlogs. destruct (opened_under p) as (e & Hm & Hne & Hpar & Hnil).
  destruct (Hlogs e Hm Hne Hpar) as (e' & Hrun & Hmsg & _).
  unfold dict_item in Hrun. rewrite path_update_value_marked in Hrun by done.
  cbn [mbind Result_bind] in Hrun. rewrite Hk in Hrun. injection Hrun as <-.
  simpl in Hmsg. rewrite Hnil, Hpar in Hmsg. symmetry. exact Hmsg.
Qed.

Lemma dict_get_set {V} (key k : string) (v : V) (d : list (string * V)) :
  dict_get k (dict_set key v d) = if String.eqb key k then Some v else dict_get k d.
Proof.
  induction d as [|[k0 v0] d IH]; simpl.
  - by destruct (String.eqb key k).
  - destruct (String.eqb k0 key) eqn:E0; simpl.
    + apply String.eqb_eq in E0. subst k0. by destruct (String.eqb key k).
    + rewrite IH. destruct (String.eqb k0 k) eqn:E1; [|done].
      apply String.eqb_eq in E1. subst k0. by rewrite String.eqb_sym, E0.
Qed.

Lemma DictValidator_reject_keys_get (keys : list string) (msg : option string)
    (self v' : Validator) (key : string) :
  DictValidator_reject_keys keys msg self = Ok v' → key ∈ keys →
  ∃ m reject any_key ks kvs valid,
    v' = DictValidator m reject any_key ks kvs valid ∧ dict_get key reject = Some msg.
Proof.
  assert (∀ keys self v', DictValidator_reject_keys keys msg self = Ok v' →
          ∃ m reject reject' any_key ks kvs valid,
            self = DictValidator m reject any_key ks kvs valid ∧
            v' = DictValidator m reject' any_key ks kvs valid ∧
            ∀ k, dict_get k reject = Some msg → dict_get k reject' = Some msg)
    as Hkeep.
  { clear. induction keys as [|k0 keys IH]; intros self v' Hrun; simpl in Hrun.
    - destruct self; try done. injection Hrun as <-. by repeat eexists.
    - destruct self; try done. cbn [mbind Result_bind] in Hrun.
      destruct (IH _ _ Hrun) as (? & ? & reject' & ? & ? & ? & ? & [= <- <- <- <- <- <-]
                                 & -> & Hk).
      repeat eexists. intros k Hget. apply Hk. rewrite dict_get_set, Hget.
      by destruct (String.eqb k0 k). }
  revert self. induction keys as [|k0 keys IH]; intros self Hrun Hin.
  { by apply elem_of_nil in Hin. }
  simpl in Hrun. destruct self; try done. cbn [mbind Result_bind] in Hrun.
  apply elem_of_cons in Hin as [-> |Hin]; [|exact (IH _ Hrun Hin)].
  destruct (Hkeep _ _ _ Hrun) as (? & ? & reject' & ? & ? & ? & ? & [= <- <- <- <- <- <-]
                                  & -> & Hk).
  repeat eexists. apply Hk. by rewrite dict_get_set, String.eqb_refl.
Qed.

(** X16: a dictionary with a key that [reject_keys] was given is never
    valid: the mapping rule returns [False], and its messages hold the
    message of the key, or [key '<key>' is forbidden here] when none
    was given, under the segment [dict:<key>]. *)
Theorem DictValidator_reject_keys_forbidden (keys : list string)
    (msg : option string) (self v' : Validator) (key : string) (value : Data)
    (items : list (Data * Data)) (e e' : Errors) (b : bool) :
  DictValidator_reject_keys keys msg self = Ok v' → key ∈ keys →
  (DStr key, value) ∈ items →
  validate env v' (DDict items) e = Ok (b, e') →
  b = false ∧
  located (path e ++ [("dict:" ++ key)%string]) (forbidden env msg (DStr key))
    ∈ messages e'.
Proof.
  intros Hrej Hkey Hin Hrun.
  destruct (DictValidator_reject_keys_get keys msg self v' key Hrej Hkey)
    as (m & reject & any_key & ks & kvs & valid & -> & Hget).
  destruct (DictValidator_validate_run _ _ _ _ _ _ _ _ _ _ Hrun)
    as (added & Hlogs & -> & ->).
  destruct (logs_for_each_in _ _ _ _ _
              (λ kv, scoped_dict_item env reject _ _ _ kv
                       (steady_dict_bound env any_key kvs valid)) Hlogs Hin)
    as (a & Ha & Hsub).
  apply (dict_item_rejected _ _ _ _ (DStr key) value msg) in Ha; [|done]. subst a.
  assert (located (path e ++ [("dict:" ++ key)%string]) (forbidden env msg (DStr key))
          ∈ added) as Hadded by (apply Hsub; by left).
  split.
  - destruct added; [by apply elem_of_nil in Hadded | done].
  - apply elem_of_app. right. apply elem_of_app. by left.
Qed.

Lemma item_rules_decides (value : Data) (rules : list Validator) (e1 e' : Errors)
    (msg : string) :
  forallb (well_built env) rules = true → messages e1 = [] →
  (if is_empty (map (rule env) rules) then Ok (add msg e1)
   else '(_, e3) ← validate_item env value (map (rule env) rules) e1; Ok e3) = Ok e' →
  (messages e' = [] ↔ Exists (λ r, takes env (path e1) r value) rules).
Proof.
  intros Hw Hnil Hrun. destruct rules as [|r rules].
  { simpl in Hrun. injection Hrun as <-. simpl. rewrite Hnil. simpl.
    split; [done | by intros ?%Exists_nil]. }
  cbn [map is_empty] in Hrun. change (rule env r :: map (rule env) rules)
    with (map (rule env) (r :: rules)) in Hrun.
  destruct (validate_item env value _ e1) as [[b e2]|] eqn:Hv; [|done].
  cbn [mbind Result_bind] in Hrun. injection Hrun as ->.
  rewrite <- (validate_item_decides env value (r :: rules) e1 e' b Hw Hv).
  destruct b.
  - apply validate_item_true_clean in Hv; [|apply steady_rules]. by rewrite Hv.
  - apply validate_item_false_logs in Hv; [|apply steady_rules].
    unfold count in Hv. rewrite Hnil in Hv. simpl in Hv.
    split; [|done]. intros Hm. rewrite Hm in Hv. simpl in Hv. lia.
Qed.

Lemma dict_item_decides (reject : list (string * option string))
    (any_key : list Validator) (valid : list (string * list Validator))
    (key value : Data) (p a : list string) :
  forallb (well_built env) any_key = true →
  forallb (λ p, forallb (well_built env) (snd p)) valid = true →
  logs (dict_item env reject (map (rule env) any_key) [] (bound_lists env valid)
          (key, value)) p a →
  (a = [] ↔
   get_key key reject = None ∧
   Exists (λ r, takes env (p ++ [("dict:" ++ py_str env key)%string]) r value)
     (default any_key (get_key key valid))).
Proof.
  intros Hwa Hwv Hlogs. destruct (opened_under p) as (e & Hm & Hne & Hpar & Hnil).
  destruct (Hlogs e Hm Hne Hpar) as (e' & Hrun & Hmsg & _).
  rewrite Hnil in Hmsg. simpl in Hmsg. subst a.
  unfold dict_item in Hrun. rewrite path_update_value_marked in Hrun by done.
  cbn [mbind Result_bind] in Hrun. rewrite Hpar, Hnil in Hrun.
  destruct (get_key key reject) as [msg|] eqn:Hrej.
  { injection Hrun as <-. simpl. split; [done | by intros [? _]]. }
  unfold key_rules in Hrun. rewrite get_key_bound_lists in Hrun.
  set (e1 := mkErrors _ _ _) in Hrun.
  assert (forallb (well_built env) (default any_key (get_key key valid)) = true) as Hw.
  { destruct (get_key key valid) as [rules|] eqn:Hget; [|done]. simpl.
    destruct key; try done. simpl in Hget.
    apply (dict_get_Forall (λ rs, forallb (well_built env) rs = true) s valid);
      [|done].
    apply Forall_forall. intros kv Hkv%list_elem_of_In.
    by apply (proj1 (forallb_forall _ _) Hwv). }
  assert (∀ q, q = path e1 → (messages e' = [] ↔ Exists (λ r, takes env q r value)
                     (default any_key (get_key key valid)))) as Hdec.
  { intros q ->. destruct (get_key key valid) as [rules|]; simpl in Hrun, Hw |- *.
    - cbn [mbind Result_bind] in Hrun.
      by apply (item_rules_decides value rules e1 e' (not_recognized env (bound_lists env valid) key)).
    - cbn [mbind Result_bind] in Hrun. rewrite Z.sub_diag in Hrun.
      change (back_out_errors 0 e1) with e1 in Hrun.
      apply (item_rules_decides value any_key e1 e'
               (not_recognized env (bound_lists env valid) key)); [done | done|].
      destruct (is_empty (map (rule env) any_key)) eqn:Hemp;
        cbn [mbind Result_bind] in Hrun; by rewrite Hemp in Hrun. }
  rewrite <- (Hdec (p ++ [("dict:" ++ py_str env key)%string]) eq_refl).
  split; [done | by intros [_ ?]].
Qed.

(** X17: which dictionaries a mapping rule without rules for the keys
    themselves validates: those that have every required key, no key
    that is rejected, and whose every value is taken by one of the rules
    of its key, or, for a key without rules, by one of the rules for any
    key. A key with no rule at all makes the dictionary invalid. *)
Theorem DictValidator_validate_iff (m : option string)
    (reject : list (string * option string)) (any_key : list Validator)
    (required_keys : list string) (valid : list (string * list Validator))
    (items : list (Data * Data)) (e e' : Errors) (b : bool) :
  well_built env (DictValidator m reject any_key required_keys [] valid) = true →
  validate env (DictValidator m reject any_key required_keys [] valid)
    (DDict items) e = Ok (b, e') →
  (b = true ↔
   Forall (λ k, has_key k items = true) required_keys ∧
   Forall (λ kv, get_key (fst kv) reject = None ∧
                 Exists (λ r, takes env
                                (path e ++ [("dict:" ++ py_str env (fst kv))%string])
                                r (snd kv))
                   (default any_key (get_key (fst kv) valid))) items).
Proof.
  intros Hw Hrun. simpl in Hw. rewrite andb_true_r in Hw.
  apply andb_true_iff in Hw as [Hwa Hwv].
  destruct (DictValidator_validate_run _ _ _ _ _ _ _ _ _ _ Hrun)
    as (added & Hlogs & -> & _).
  rewrite <- (missing_required_nil required_keys items (path e)).
  rewrite <- (for_each_decides _
                (λ kv, get_key (fst kv) reject = None ∧
                       Exists (λ r, takes env
                                      (path e ++ [("dict:" ++ py_str env (fst kv))%string])
                                      r (snd kv))
                         (default any_key (get_key (fst kv) valid)))
                (path e)
                (λ kv, scoped_dict_item env reject _ _ _ kv
                         (steady_dict_bound env any_key [] valid))
                (λ kv, match kv with
                       | (key, value) =>
                           λ a, dict_item_decides reject any_key valid key value
                                  (path e) a Hwa Hwv
                       end) items added Hlogs).
  destruct added; simpl; [|split; [done | by intros [_ ?]]].
  destruct (missing_required _ _ _);
    [split; [by intros _; split | done] | split; [done | by intros [? _]]].
Qed.

End Mapping.

Lemma RootValidator_validate_iff_witness :
  ∃ b e', validate bare_env (RootValidator None [TextValidator None]) (DInt 5)
            new_errors = Ok (b, e') ∧
          (b = true ↔ Exists (λ r, takes bare_env (path new_errors) r (DInt 5))
                        [TextValidator None]).
Proof.
  exact (RootValidator_validate_iff bare_env None [TextValidator None] (DInt 5)
           new_errors eq_refl).
Defined.

Lemma add_root_parent_validate_witness :
  name (add_root_parent (TextValidator None)) = "root" ∧
  ∃ b e', validate bare_env (add_root_parent (TextValidator None)) (DStr "a")
            new_errors = Ok (b, e') ∧
          (b = true ↔ takes bare_env (path new_errors) (TextValidator None) (DStr "a")).
Proof.
  exact (add_root_parent_validate bare_env (TextValidator None) (DStr "a") new_errors
           eq_refl).
Defined.

Lemma ListValidator_validate_iff_witness :
  false = true ↔
  Forall (λ x, ∃ i, list_index x [DStr "a"; DInt 2] = Some i ∧
                    Exists (λ r, takes bare_env
                                   (path new_errors
                                    ++ [("list:" ++ pretty (Z.of_nat i))%string]) r x)
                      [TextValidator None]) [DStr "a"; DInt 2].
Proof.
  exact (ListValidator_validate_iff bare_env None [TextValidator None]
           [DStr "a"; DInt 2] new_errors _ false eq_refl eq_refl).
Defined.

Lemma DictValidator_validate_required_witness :
  false = false ∧
  located (path new_errors) "key 'a' required"
  ∈ messages (mkErrors ["[/] key 'a' required"] [] (Some (-1))).
Proof.
  exact (DictValidator_validate_required bare_env None [] [] ["a"] [] [] [] new_errors
           _ false "a" eq_refl (list_elem_of_here "a" []) eq_refl).
Defined.

Lemma DictValidator_reject_keys_forbidden_witness :
  false = false ∧
  located (path new_errors ++ ["dict:a"]) (forbidden bare_env None (DStr "a"))
  ∈ messages (mkErrors ["[/dict:a] key 'a' is forbidden here"] [] (Some (-1))).
Proof.
  exact (DictValidator_reject_keys_forbidden bare_env ["a"] None
           (DictValidator None [] [] [] [] []) _ "a" (DInt 1) [(DStr "a", DInt 1)]
           new_errors _ false eq_refl (list_elem_of_here "a" [])
           (list_elem_of_here (DStr "a", DInt 1) []) eq_refl).
Defined.

Lemma DictValidator_validate_iff_witness :
  true = true ↔
  Forall (λ k, has_key k [(DStr "a", DStr "x")] = true) [] ∧
  Forall (λ kv, get_key (fst kv) (@nil (string * option string)) = None ∧
                Exists (λ r, takes bare_env
                               (path new_errors
                                ++ [("dict:" ++ py_str bare_env (fst kv))%string])
                               r (snd kv))
                  (default [] (get_key (fst kv) [("a", [TextValidator None])])))
    [(DStr "a", DStr "x")].
Proof.
  exact (DictValidator_validate_iff bare_env None [] [] [] [("a", [TextValidator None])]
           [(DStr "a", DStr "x")] new_errors _ true eq_refl eq_refl).
Defined.

(** ** Building rules *)

Lemma existsb_app_l {A} (f : A → bool) (l k : list A) :
  existsb f l = true → existsb f (l ++ k) = true.
Proof. intros H. by rewrite existsb_app, H. Qed.

Lemma existsb_snoc {A} (f : A → bool) (l : list A) (x : A) :
  f x = true → existsb f (l ++ [x]) = true.
Proof. intros H. rewrite existsb_app. simpl. rewrite H. by destruct (existsb f l). Qed.

(** A value the choice rule holds, as it is or in lower case. *)
Lemma ChoiceValidator_validate_held (env : Env) (valid : list Data)
    (valid_ic : list string) (d : Data) (e : Errors) :
  existsb (py_eq d) valid = true
  ∨ (∃ s, d = DStr s ∧ existsb (String.eqb (lower s)) valid_ic = true) →
  ChoiceValidator_validate env valid valid_ic d e = Ok (true, e).
Proof.
  unfold ChoiceValidator_validate. intros [-> |(s & -> & Hic)]; [done|].
  rewrite Hic. by destruct (existsb _ valid).
Qed.

Lemma ChoiceValidator_accept_choices_held (values : list Data) (ignore_case : bool)
    (message : option string) (valid : list Data) (valid_ic : list string) :
  Forall (λ d, is_basestring d || is_int d || is_float d = true) values →
  ∃ valid' valid_ic',
    ChoiceValidator_accept_choices values ignore_case message valid valid_ic
    = Ok (ChoiceValidator message valid' valid_ic') ∧
    ∀ d, (existsb (py_eq d) valid = true
          ∨ (∃ s, d = DStr s ∧ existsb (String.eqb (lower s)) valid_ic = true)
          ∨ d ∈ values) →
         existsb (py_eq d) valid' = true
         ∨ (∃ s, d = DStr s ∧ existsb (String.eqb (lower s)) valid_ic' = true).
Proof.
  intros Hall. revert valid valid_ic.
  induction Hall as [|value values Hv _ IH]; intros valid valid_ic.
  { exists valid, valid_ic. split; [done|].
    intros d [?|[?|Hin]]; [by left | by right | by apply elem_of_nil in Hin]. }
  cbn [ChoiceValidator_accept_choices]. unfold ChoiceValidator_accept.
  rewrite Hv. cbn [negb].
  assert (∀ valid1 valid_ic1,
            (∀ d, (existsb (py_eq d) valid = true
                   ∨ (∃ s, d = DStr s ∧ existsb (String.eqb (lower s)) valid_ic = true)
                   ∨ d = value) →
                  existsb (py_eq d) valid1 = true
                  ∨ (∃ s, d = DStr s ∧ existsb (String.eqb (lower s)) valid_ic1 = true)) →
            ∃ valid' valid_ic',
              ChoiceValidator_accept_choices values ignore_case message valid1 valid_ic1
              = Ok (ChoiceValidator message valid' valid_ic') ∧
              ∀ d, (existsb (py_eq d) valid = true
                    ∨ (∃ s, d = DStr s ∧ existsb (String.eqb (lower s)) valid_ic = true)
                    ∨ d ∈ value :: values) →
                   existsb (py_eq d) valid' = true
                   ∨ (∃ s, d = DStr s ∧ existsb (String.eqb (lower s)) valid_ic' = true))
    as Hstep.
  { intros valid1 valid_ic1 H1.
    destruct (IH valid1 valid_ic1) as (valid' & valid_ic' & Hrun & Hheld).
    exists valid', valid_ic'. split; [done|]. intros d Hd. apply Hheld.
    destruct Hd as [Hd|[Hd|Hd]].
    - destruct (H1 d (or_introl Hd)); [by left | right; by left].
    - destruct (H1 d (or_intror (or_introl Hd))); [by left | right; by left].
    - apply elem_of_cons in Hd as [-> |Hd]; [|right; by right].
      destruct (H1 value (or_intror (or_intror eq_refl))); [by left | right; by left]. }
  assert (∀ d, existsb (py_eq d) valid = true
               ∨ (∃ s, d = DStr s ∧ existsb (String.eqb (lower s)) valid_ic = true)
               ∨ d = value →
               existsb (py_eq d) (valid ++ [value]) = true
               ∨ (∃ s, d = DStr s ∧ existsb (String.eqb (lower s)) valid_ic = true))
    as Hplain.
  { intros d [Hd|[Hd| ->]]; [left; by apply existsb_app_l | by right|].
    left. apply existsb_snoc, py_eq_refl. }
  destruct value as [| | | | |s| |]; cbn [mbind Result_bind];
    try (by apply Hstep).
  destruct ignore_case; cbn [mbind Result_bind]; [|by apply Hstep].
  apply Hstep. intros d [Hd|[(s' & -> & Hd)| ->]].
  - by left.
  - right. exists s'. split; [done|]. by apply existsb_app_l.
  - right. exists s. split; [done|]. apply existsb_snoc, String.eqb_refl.
Qed.

Section Builders.

Context (env : Env).

(** X18: [accept_choices] returns on a list whose values are strings,
    ints, booleans or floats, and afterwards the choice rule validates
    each value of the list and everything it validated before, with
    [ignore_case] or without. On a list with any other value, a [long]
    or [None] say, it raises. *)
Theorem ChoiceValidator_accept_choices_validate (values : list Data)
    (ignore_case : bool) (message : option string) (valid : list Data)
    (valid_ic : list string) :
  (Forall (λ d, is_basestring d || is_int d || is_float d = true) values →
   ∃ v', ChoiceValidator_accept_choices values ignore_case message valid valid_ic
         = Ok v' ∧
         ∀ d e, (d ∈ values
                 ∨ validate env (ChoiceValidator message valid valid_ic) d e
                   = Ok (true, e)) →
                validate env v' d e = Ok (true, e)) ∧
  (¬ Forall (λ d, is_basestring d || is_int d || is_float d = true) values →
   ChoiceValidator_accept_choices values ignore_case message valid valid_ic
   = Raise (Exception "Choice validator only accepts strings and numbers")).
Proof.
  split.
  - intros Hall.
    destruct (ChoiceValidator_accept_choices_held values ignore_case message valid
                valid_ic Hall) as (valid' & valid_ic' & Hrun & Hheld).
    eexists. split; [exact Hrun|]. intros d e Hd.
    apply ChoiceValidator_validate_held, Hheld.
    destruct Hd as [Hd|Hd]; [right; by right|].
    simpl in Hd. unfold ChoiceValidator_validate in Hd.
    destruct (existsb (py_eq d) valid); [by left|].
    destruct d; try done. right. left. eexists. split; [done|].
    by destruct (existsb _ valid_ic).
  - revert valid valid_ic.
    induction values as [|value values IH]; intros valid valid_ic Hnot.
    { destruct Hnot. constructor. }
    cbn [ChoiceValidator_accept_choices]. unfold ChoiceValidator_accept.
    destruct (is_basestring value || is_int value || is_float value) eqn:Hv;
      [|reflexivity].
    cbn [negb].
    assert (¬ Forall (λ d, is_basestring d || is_int d || is_float d = true) values)
      as Hrest by (intros Hall; apply Hnot; by constructor).
    destruct value; try done; cbn [mbind Result_bind]; try (by apply IH).
    destruct ignore_case; cbn [mbind Result_bind]; by apply IH.
Qed.

(** X19: after [accept(regexp)] the rule validates every string the
    pattern matches and no rejected pattern matches, whatever was
    accepted before. *)
Theorem RegexpMatchValidator_accept_validate (regexp : string)
    (kw_message message : option string) (regexps reject_regexps : list string)
    (v' : Validator) (s : string) (e : Errors) :
  RegexpMatchValidator_accept env regexp kw_message message regexps reject_regexps
  = Ok v' →
  re_match env regexp s = true →
  existsb (λ r, re_match env r s) reject_regexps = false →
  validate env v' (DStr s) e = Ok (true, e).
Proof.
  unfold RegexpMatchValidator_accept, add_regexp.
  destruct (re_compiles env regexp); [|done]. cbn [mbind Result_bind].
  intros [= <-] Hm Hrej. simpl. unfold RegexpMatchValidator_validate.
  by rewrite Hrej, (existsb_snoc (λ r, re_match env r s) regexps regexp Hm).
Qed.

(** X20: after [reject(regexp)] the rule validates no string the
    pattern matches, whatever is accepted: it returns [False] and logs
    one message, its own if it has one. *)
Theorem RegexpMatchValidator_reject_validate (regexp : string)
    (message : option string) (regexps reject_regexps : list string)
    (v' : Validator) (s : string) (e : Errors) :
  RegexpMatchValidator_reject env regexp message regexps reject_regexps = Ok v' →
  re_match env regexp s = true →
  validate env v' (DStr s) e
  = Ok (false, add (default (s ++ " does not match regexp")%string (truthy message)) e).
Proof.
  unfold RegexpMatchValidator_reject, add_regexp.
  destruct (re_compiles env regexp); [|done]. cbn [mbind Result_bind].
  intros [= <-] Hm. simpl. unfold RegexpMatchValidator_validate.
  rewrite (existsb_snoc (λ r, re_match env r s) reject_regexps regexp Hm).
  cbn [negb andb]. by destruct (truthy message).
Qed.

(** X21: what the number rule validates holds everything the integer,
    the decimal and the boolean rules validate. *)
Theorem NumberValidator_validate_includes (m m' : option string) (d : Data)
    (e e1 : Errors) :
  validate env (IntegerValidator m) d e = Ok (true, e1)
  ∨ validate env (DecimalValidator m) d e = Ok (true, e1)
  ∨ validate env (BooleanValidator m) d e = Ok (true, e1) →
  validate env (NumberValidator m') d e = Ok (true, e).
Proof.
  simpl. unfold IntegerValidator_validate, DecimalValidator_validate,
    BooleanValidator_validate, NumberValidator_validate, check_type.
  by destruct d; intros [?|[?|?]].
Qed.

End Builders.

Lemma dict_get_setdefault_append {V} (key k : string) (v : V)
    (m : list (string * list V)) :
  dict_get k (setdefault_append key v m)
  = if String.eqb key k then Some (default [] (dict_get k m) ++ [v])
    else dict_get k m.
Proof.
  induction m as [|[k0 vs] m IH]; simpl.
  - by destruct (String.eqb key k).
  - destruct (String.eqb k0 key) eqn:E0; simpl.
    + apply String.eqb_eq in E0. subst k0. by destruct (String.eqb key k).
    + rewrite IH. destruct (String.eqb k0 k) eqn:E1; [|done].
      apply String.eqb_eq in E1. subst k0. by rewrite String.eqb_sym, E0.
Qed.

Lemma require_key_NoDup (key : string) (required_keys : list string) :
  NoDup required_keys → NoDup (require_key key required_keys).
Proof.
  intros Hnd. unfold require_key.
  destruct (existsb (String.eqb key) required_keys) eqn:Hex; [done|].
  apply NoDup_app. split; [done|]. split; [|apply NoDup_singleton].
  intros k Hk ->%list_elem_of_singleton.
  assert (existsb (String.eqb key) required_keys = true); [|congruence].
  apply existsb_exists. exists key. split; [by apply list_elem_of_In|].
  apply String.eqb_refl.
Qed.

Lemma require_key_elem (key k : string) (required_keys : list string) :
  k ∈ require_key key required_keys ↔ k = key ∨ k ∈ required_keys.
Proof.
  unfold require_key.
  destruct (existsb (String.eqb key) required_keys) eqn:Hex.
  - split; [by right|]. intros [-> |?]; [|done].
    apply existsb_exists in Hex as (k' & Hin & ->%String.eqb_eq).
    by apply list_elem_of_In.
  - rewrite elem_of_app, list_elem_of_singleton. tauto.
Qed.

(** X22: what [accept(value, key, required)] does to a mapping rule:
    the rules of the key are those of before and then [value], the
    rules of the other keys and everything else are as before, the key
    is required afterwards if [required] was given or it was so before,
    and no key is listed twice as required. *)
Theorem DictValidator_accept_rules (value : Validator) (key : string)
    (required : bool) (m : option string) (reject : list (string * option string))
    (any_key : list Validator) (required_keys : list string)
    (kvs : list (Validator * Validator)) (valid : list (string * list Validator)) :
  key ≠ "" →
  ∃ required_keys' valid',
    DictValidator_accept value key required
      (DictValidator m reject any_key required_keys kvs valid)
    = Ok (DictValidator m reject any_key required_keys' kvs valid') ∧
    dict_get key valid' = Some (default [] (dict_get key valid) ++ [value]) ∧
    (∀ k, k ≠ key → dict_get k valid' = dict_get k valid) ∧
    (∀ k, k ∈ required_keys' ↔ (required = true ∧ k = key) ∨ k ∈ required_keys) ∧
    (NoDup required_keys → NoDup required_keys').
Proof.
  intros Hkey. simpl.
  destruct (String.eqb key "") eqn:E; [by apply String.eqb_eq in E|].
  eexists _, _. split; [done|]. split; [|split; [|split]].
  - by rewrite dict_get_setdefault_append, String.eqb_refl.
  - intros k Hk. rewrite dict_get_setdefault_append.
    destruct (String.eqb key k) eqn:E'; [|done]. by apply String.eqb_eq in E'.
  - intros k. destruct required; [|split; [by right | by intros [[? _]|?]]].
    rewrite require_key_elem. split; [intros [?|?]; [by left | by right]|].
    intros [[_ ?]|?]; [by left | by right].
  - destruct required; [apply require_key_NoDup | done].
Qed.

Lemma DictValidator_accept_rules_witness :
  ∃ required_keys' valid',
    DictValidator_accept (TextValidator None) "a" true
      (DictValidator None [] [] [] [] [("a", [IntegerValidator None])])
    = Ok (DictValidator None [] [] required_keys' [] valid') ∧
    dict_get "a" valid'
    = Some (default [] (dict_get "a" [("a", [IntegerValidator None])])
            ++ [TextValidator None]) ∧
    (∀ k, k ≠ "a" → dict_get k valid' = dict_get k [("a", [IntegerValidator None])]) ∧
    (∀ k, k ∈ required_keys' ↔ (true = true ∧ k = "a") ∨ k ∈ @nil string) ∧
    (NoDup (@nil string) → NoDup required_keys').
Proof.
  apply (DictValidator_accept_rules (TextValidator None) "a" true None [] [] [] []
           [("a", [IntegerValidator None])]).
  discriminate.
Defined.

Lemma ChoiceValidator_accept_choices_validate_witness :
  (∃ v', ChoiceValidator_accept_choices [DStr "Foo"; DInt 1] true None [] [] = Ok v' ∧
         ∀ d e, (d ∈ [DStr "Foo"; DInt 1]
                 ∨ validate bare_env (ChoiceValidator None [] []) d e = Ok (true, e)) →
                validate bare_env v' d e = Ok (true, e)) ∧
  ChoiceValidator_accept_choices [DStr "Foo"; DLong 1] true None [] []
  = Raise (Exception "Choice validator only accepts strings and numbers").
Proof.
  split.
  - apply (proj1 (ChoiceValidator_accept_choices_validate bare_env
                    [DStr "Foo"; DInt 1] true None [] [])).
    repeat constructor.
  - apply (proj2 (ChoiceValidator_accept_choices_validate bare_env
                    [DStr "Foo"; DLong 1] true None [] [])).
    intros Hall. apply Forall_cons in Hall as [_ Hall].
    apply Forall_cons in Hall as [Hlong _]. discriminate Hlong.
Defined.

(** ** The words of the messages *)

Lemma string_app_assoc (a b c : string) : ((a ++ b) ++ c)%string = (a ++ b ++ c)%string.
Proof.
  induction a as [|x a IH]; [done|].
  change (String x ((a ++ b) ++ c) = String x (a ++ b ++ c))%string. by rewrite IH.
Qed.

Lemma join_comma_snoc (l : list string) (tail : string) :
  (join ", " (l ++ [""]) ++ tail)%string = foldr (λ x acc, (x ++ ", " ++ acc)%string) tail l.
Proof.
  unfold join. induction l as [|x l IH]; [done|].
  cbn [foldr]. rewrite <- IH.
  change ((x :: l) ++ [""]) with (x :: (l ++ [""])).
  destruct l as [|y l];
    [change (String.concat ", " (x :: [] ++ [""]))
       with (x ++ ", " ++ String.concat ", " ([] ++ [""]))%string
    |change (String.concat ", " (x :: (y :: l) ++ [""]))
       with (x ++ ", " ++ String.concat ", " ((y :: l) ++ [""]))%string];
    by rewrite !string_app_assoc.
Qed.

(** X23: how [validate_item] words the kinds it asked for: the names
    but the last two are each followed by a comma, and the last two are
    joined by [or]; one name stands alone, and no name gives the empty
    string. *)
Theorem english_list_format (l : list string) (a b : string) :
  english_list (l ++ [a; b])
  = foldr (λ x acc, (x ++ ", " ++ acc)%string) (a ++ " or " ++ b)%string l
  ∧ english_list [a] = a ∧ english_list [] = "".
Proof.
  split; [|done]. unfold english_list.
  rewrite length_app. simpl.
  replace (length l + 2 - 2)%nat with (length l) by lia.
  rewrite take_app_length, drop_app_length. apply join_comma_snoc.
Qed.

(** ** The require_field plugin *)

Section RequireField.

Context (env : Env).

Lemma takes_text (p : list string) (d : Data) :
  takes env p (TextValidator None) d ↔ is_basestring d = true.
Proof.
  split; [by intros [? _]|]. intros Hd. split; [done|].
  exists (mkErrors [] p None), (mkErrors [] p None). split; [done|].
  simpl. unfold TextValidator_validate, check_type. by rewrite Hd.
Qed.

Lemma ListValidator_text_decides (l : list Data) (e e' : Errors) (b : bool) :
  validate env (ListValidator None [TextValidator None]) (DList l) e = Ok (b, e') →
  (b = true ↔ Forall (λ x, is_basestring x = true) l).
Proof.
  intros Hrun.
  destruct (ListValidator_validate_run env None [TextValidator None] l e e' b Hrun)
    as (added & Hlogs & -> & _).
  pose proof (for_each_decides _ _ (path e)
                (λ x, scoped_list_item env _ l x (steady_rules env [TextValidator None]))
                (λ x a, list_item_decides env [TextValidator None] l x (path e) a eq_refl)
                l added Hlogs) as Hdec.
  assert (is_empty added = true ↔ added = []) as -> by (by destruct added).
  rewrite Hdec, !Forall_forall. split.
  - intros Hall x Hx. destruct (Hall x Hx) as (i & _ & Hex).
    apply Exists_cons in Hex as [Ht|Hex]; [by apply takes_text in Ht|].
    by apply Exists_nil in Hex.
  - intros Hall x Hx. destruct (list_index_found l x Hx) as [i Hi].
    exists i. split; [done|]. apply Exists_cons_hd, takes_text. by apply Hall.
Qed.

Lemma takes_list_of_text (p : list string) (d : Data) :
  takes env p (ListValidator None [TextValidator None]) d
  ↔ ∃ l, d = DList l ∧ Forall (λ x, is_basestring x = true) l.
Proof.
  split.
  - intros [Hable (e & e' & _ & Hrun)]. destruct d; try done.
    eexists. split; [done|]. by apply (ListValidator_text_decides _ e e' true).
  - intros (l & -> & Hall). split; [done|].
    destruct (validate_returns env (ListValidator None [TextValidator None]) eq_refl
                (DList l) eq_refl (mkErrors [] p None)) as (b & e' & Hrun).
    exists (mkErrors [] p None), e'. split; [done|].
    by rewrite (proj2 (ListValidator_text_decides l _ e' b Hrun) Hall) in Hrun.
Qed.

Lemma field_names_is_Some (config : Data) :
  is_Some (field_names config)
  ↔ is_basestring config = true
    ∨ ∃ l, config = DList l ∧ Forall (λ x, is_basestring x = true) l.
Proof.
  assert (∀ l, is_Some (mapM (λ d, match d with DStr s => Some s | _ => None end) l)
               ↔ Forall (λ x, is_basestring x = true) l) as Hl.
  { intros l. rewrite mapM_is_Some. apply Forall_proper; [|done].
    intros d. unfold compose. destruct d; simpl; split; try done;
      by intros [? ?]. }
  destruct config; simpl; try (split; [by intros [? ?] | by intros [?|(? & ? & _)]]).
  - split; [by left | by eexists].
  - rewrite Hl. split; [right; by eexists | by intros [?|(? & [= <-] & ?)]].
Qed.

Lemma require_field_decides (config : Data) (e e' : Errors) (b : bool) :
  validate env
    (RootValidator None [TextValidator None; ListValidator None [TextValidator None]])
    config e = Ok (b, e') →
  (b = true ↔ is_Some (field_names config)).
Proof.
  intros Hrun.
  rewrite (validate_item_decides env config
             [TextValidator None; ListValidator None [TextValidator None]]
             e e' b eq_refl Hrun).
  rewrite field_names_is_Some, Exists_cons, Exists_cons, Exists_nil.
  rewrite takes_text, takes_list_of_text. tauto.
Qed.

(** X24: the rule the plugin declares for its configuration validates a
    string and a list of strings, and nothing else: [validate] returns
    on every value, and returns [True] exactly on these. *)
Theorem FilterRequireField_validator_accepts :
  ∃ root, FilterRequireField_validator = Ok root ∧
    ∀ config e, ∃ b e', validate env root config e = Ok (b, e') ∧
                        (b = true ↔ is_Some (field_names config)).
Proof.
  exists (RootValidator None
            [TextValidator None; ListValidator None [TextValidator None]]).
  split; [reflexivity|]. intros config e.
  destruct (validate_returns env
              (RootValidator None
                 [TextValidator None; ListValidator None [TextValidator None]])
              eq_refl config eq_refl e) as (b & e' & Hrun).
  exists b, e'. split; [exact Hrun|]. exact (require_field_decides config e e' b Hrun).
Qed.

Lemma field_names_list (l : list Data) (names : list string) :
  field_names (DList l) = Some names → l = map DStr names.
Proof.
  simpl. intros H%mapM_Some_1.
  induction H as [|d n l names Hd _ IH]; [done|].
  destruct d; try done. injection Hd as ->. simpl. by rewrite IH.
Qed.

Lemma check_fields_names (entry : Entry) (names : list string)
    (rejected : list (Entry * string)) :
  check_fields env entry (map DStr names) rejected
  = Ok (rejected
        ++ map (λ n, (entry, ("Required field " ++ n ++ " is not present")%string))
             (List.filter (λ n, negb (has_key n entry)) names)).
Proof.
  revert rejected. induction names as [|n names IH]; intros rejected.
  { simpl. by rewrite app_nil_r. }
  cbn [map check_fields entry_has mbind Result_bind List.filter].
  change (existsb (λ kv, py_eq (DStr n) (fst kv)) entry) with (has_key n entry).
  rewrite IH. destruct (has_key n entry); cbn [negb map]; [done|].
  by rewrite <- app_assoc.
Qed.

Lemma filter_entries_names (names : list string) (entries : list Entry)
    (rejected : list (Entry * string)) :
  filter_entries env (DList (map DStr names)) entries rejected
  = Ok (rejected
        ++ concat
             (map (λ entry,
                     map (λ n, (entry,
                                ("Required field " ++ n ++ " is not present")%string))
                       (List.filter (λ n, negb (has_key n entry)) names))
                entries)).
Proof.
  revert rejected. induction entries as [|entry entries IH]; intros rejected; simpl.
  { by rewrite app_nil_r. }
  cbn [mbind Result_bind]. rewrite check_fields_names. cbn [mbind Result_bind].
  rewrite IH. by rewrite <- app_assoc.
Qed.

Lemma on_feed_filter_names (config : Data) (names : list string)
    (entries : list Entry) :
  field_names config = Some names →
  on_feed_filter env config entries
  = Ok (concat
          (map (λ entry,
                  map (λ n, (entry,
                             ("Required field " ++ n ++ " is not present")%string))
                    (List.filter (λ n, negb (has_key n entry)) names))
             entries)).
Proof.
  intros Hn. unfold on_feed_filter. destruct config; try done.
  - injection Hn as <-. exact (filter_entries_names [s] entries []).
  - apply field_names_list in Hn as ->. exact (filter_entries_names names entries []).
Qed.

(** X25: with a field name or a list of field names as its
    configuration, [on_feed_filter] does not raise, and it calls
    [feed.reject] once for each entry and each field the entry lacks,
    entry by entry and field by field, with the message
    [Required field <field> is not present]. *)
Theorem on_feed_filter_rejects (config : Data) (names : list string)
    (entries : list Entry) :
  field_names config = Some names →
  on_feed_filter env config entries
  = Ok (concat
          (map (λ entry,
                  map (λ n, (entry,
                             ("Required field " ++ n ++ " is not present")%string))
                    (List.filter (λ n, negb (has_key n entry)) names))
             entries)).
Proof. apply on_feed_filter_names. Qed.

(** X26: a configuration the rule of the plugin has validated never
    makes [on_feed_filter] raise, and an entry is rejected exactly when
    it lacks one of the fields of the configuration. *)
Theorem on_feed_filter_validated (root : Validator) (config : Data)
    (e e' : Errors) (entries : list Entry) :
  FilterRequireField_validator = Ok root →
  validate env root config e = Ok (true, e') →
  ∃ names rejected,
    field_names config = Some names ∧
    on_feed_filter env config entries = Ok rejected ∧
    ∀ entry, (∃ msg, (entry, msg) ∈ rejected)
             ↔ entry ∈ entries ∧ ∃ n, n ∈ names ∧ has_key n entry = false.
Proof.
  intros [= <-] Hrun.
  destruct (proj1 (require_field_decides config e e' true Hrun) eq_refl)
    as [names Hnames].
  exists names. eexists. split; [done|].
  split; [by apply on_feed_filter_names|].
  intros entry. split.
  - intros (msg & Hin). apply list_elem_of_In, in_concat in Hin as (row & Hrow & Hin).
    apply in_map_iff in Hrow as (entry' & <- & Hentry).
    apply in_map_iff in Hin as (n & [= <- _] & Hn).
    apply filter_In in Hn as [Hn Hhas].
    split; [by apply list_elem_of_In|]. exists n. split; [by apply list_elem_of_In|].
    by destruct (has_key n entry').
  - intros (Hentry & n & Hn & Hhas). eexists.
    apply list_elem_of_In, in_concat. eexists. split.
    + apply in_map_iff. exists entry. split; [done | by apply list_elem_of_In].
    + apply in_map_iff. exists n. split; [done|].
      apply filter_In. split; [by apply list_elem_of_In | by rewrite Hhas].
Qed.

End RequireField.

Section Failing.

Context (env : Env).

(** X27: every rule but [equals] logs when it fails: if [validate]
    returns [False], the collector holds the messages of before and at
    least one more. *)
Theorem validate_false_appends (v : Validator) (d : Data) (e e' : Errors) :
  logs_on_failure v = true → validate env v d e = Ok (false, e') →
  ∃ msg added, messages e' = messages e ++ msg :: added.
Proof.
  intros Hl Hrun.
  pose proof (validate_false_logs env v d e e' Hl Hrun) as Hc.
  destruct (steady_validate env v d e false e' Hrun) as (added & (Hm & _) & _).
  destruct added as [|msg added]; [|by exists msg, added].
  unfold count in Hc. rewrite Hm, app_nil_r in Hc. lia.
Qed.

End Failing.

Lemma validate_false_appends_witness :
  ∃ msg added,
    messages (mkErrors ["[/] value 5 is not valid text"] [] None)
    = messages new_errors ++ msg :: added.
Proof.
  exact (validate_false_appends bare_env (TextValidator None) (DInt 5) new_errors _
           eq_refl eq_refl).
Defined.

Lemma RegexpMatchValidator_accept_validate_witness :
  validate literal_env (RegexpMatchValidator None ["a"] []) (DStr "a") new_errors
  = Ok (true, new_errors).
Proof.
  exact (RegexpMatchValidator_accept_validate literal_env "a" None None [] [] _ "a"
           new_errors eq_refl eq_refl eq_refl).
Defined.

Lemma RegexpMatchValidator_reject_validate_witness :
  validate literal_env (RegexpMatchValidator None ["a"] ["a"]) (DStr "a") new_errors
  = Ok (false, add "a does not match regexp" new_errors).
Proof.
  exact (RegexpMatchValidator_reject_validate literal_env "a" None ["a"] [] _ "a"
           new_errors eq_refl eq_refl).
Defined.

Lemma NumberValidator_validate_includes_witness :
  validate bare_env (NumberValidator None) (DBool true) new_errors
  = Ok (true, new_errors).
Proof.
  exact (NumberValidator_validate_includes bare_env None None (DBool true) new_errors
           new_errors (or_intror (or_intror eq_refl))).
Defined.

Lemma on_feed_filter_rejects_witness :
  on_feed_filter bare_env (DList [DStr "title"; DStr "imdb_url"])
    [[(DStr "title", DStr "x")]; [(DStr "imdb_url", DStr "y")]]
  = Ok [([(DStr "title", DStr "x")], "Required field imdb_url is not present");
        ([(DStr "imdb_url", DStr "y")], "Required field title is not present")].
Proof.
  exact (on_feed_filter_rejects bare_env (DList [DStr "title"; DStr "imdb_url"])
           ["title"; "imdb_url"]
           [[(DStr "title", DStr "x")]; [(DStr "imdb_url", DStr "y")]] eq_refl).
Defined.

Lemma on_feed_filter_validated_witness :
  ∃ names rejected,
    field_names (DStr "imdb_url") = Some names ∧
    on_feed_filter bare_env (DStr "imdb_url") [[(DStr "title", DStr "x")]]
    = Ok rejected ∧
    ∀ entry, (∃ msg, (entry, msg) ∈ rejected)
             ↔ entry ∈ [[(DStr "title", DStr "x")]]
               ∧ ∃ n, n ∈ names ∧ has_key n entry = false.
Proof.
  exact (on_feed_filter_validated bare_env _ (DStr "imdb_url") new_errors _
           [[(DStr "title", DStr "x")]] eq_refl eq_refl).
Defined.

Section AnyKey.

Context (env : Env).

(** X28: after [accept_any_key(value)] on a mapping rule fresh from
    [factory], a dictionary is valid exactly when [value] takes the
    value of each of its keys, whatever the keys are. *)
Theorem DictValidator_accept_any_key_validate (value v' : Validator)
    (items : list (Data * Data)) (e e' : Errors) (b : bool) :
  (d ← factory "dict"; DictValidator_accept_any_key (Built value) d) = Ok v' →
  well_built env value = true →
  validate env v' (DDict items) e = Ok (b, e') →
  (b = true ↔
   Forall (λ kv, takes env (path e ++ [("dict:" ++ py_str env (fst kv))%string])
                   value (snd kv)) items).
Proof.
  intros [= <-] Hw Hrun.
  assert (forallb (well_built env) [value] = true) as Hws by (simpl; by rewrite Hw).
  destruct (DictValidator_validate_run env _ _ _ _ _ _ _ _ _ _ Hrun)
    as (added & Hlogs & -> & _).
  change (missing_required [] items (path e)) with (@nil string).
  rewrite app_nil_r.
  assert (∀ kv a,
            logs (dict_item env [] (map (rule env) [value]) (bound_pairs env [])
                    (bound_lists env []) kv) (path e) a →
            (a = [] ↔ takes env (path e ++ [("dict:" ++ py_str env (fst kv))%string])
                        value (snd kv))) as Hitem.
  { intros [key val] a Ha.
    rewrite (dict_item_decides env [] [value] [] key val (path e) a Hws eq_refl Ha).
    assert (get_key key (@nil (string * option string)) = None) as ->
      by (by destruct key).
    assert (get_key key (@nil (string * list Validator)) = None) as ->
      by (by destruct key).
    simpl. rewrite Exists_cons, Exists_nil. tauto. }
  rewrite <- (for_each_decides _ _ (path e)
                (λ kv, scoped_dict_item env [] _ _ _ kv
                         (steady_dict_bound env [value] [] []))
                Hitem items added Hlogs).
  by destruct added.
Qed.

End AnyKey.

Lemma DictValidator_accept_any_key_validate_witness :
  false = true ↔
  Forall (λ kv, takes bare_env
                  (path new_errors ++ [("dict:" ++ py_str bare_env (fst kv))%string])
                  (TextValidator None) (snd kv))
    [(DStr "a", DStr "x"); (DInt 2, DInt 3)].
Proof.
  exact (DictValidator_accept_any_key_validate bare_env (TextValidator None) _
           [(DStr "a", DStr "x"); (DInt 2, DInt 3)] new_errors _ false
           eq_refl eq_refl eq_refl).
Defined.
